(** * chess-game-generator: random game generation, move-log store and
    closest-length selection ([main.go])

    The program plays random legal chess games, one per seed, appends each
    game to a line-oriented storage file, keeps for seven target lengths the
    game whose half-move count is closest, and finally writes the selected
    games to a result file.

    The chess rules engine ([github.com/andrewbackes/chess]) and the Go
    runtime pieces the program calls ([math/rand], [sort.Slice],
    [strconv.Quote], the order of a [range] over a map) are not part of the
    repository: they are interfaces here ([RulesEngine], [GoRuntime]), and
    the laws a theorem needs from them are stated in [EngineLaws] and
    [RuntimeLaws].  The text functions of the Go library whose exact
    behaviour decides the storage format ([strings.Split], [strings.Join],
    [strconv.Atoi], [fmt.Sprint] of an [int], [bufio.ScanLines]) are written
    out. *)

From stdpp Require Import base gmap list strings sorting.
From Stdlib Require Import ZArith Lia Ascii String.

Open Scope Z_scope.

(** ** Go text functions *)

Module GoText.

Definition nl : ascii := "010"%char.
Definition cr : ascii := "013"%char.
Definition sp : ascii := " "%char.
Definition tab : ascii := "009"%char.
Definition dquote : ascii := "034"%char.

(** [len(s)] of a Go string: its number of bytes, as an [int]. *)
Definition len (s : string) : Z := Z.of_nat (String.length s).

(** [strings.Split(s, sep)] for a one-byte separator: the pieces between
    the separators; [n] separators give [n+1] pieces, so the result is
    never empty. *)
Fixpoint Split (s : string) (sep : ascii) : list string :=
  match s with
  | EmptyString => [EmptyString]
  | String c s' =>
      if decide (c = sep) then EmptyString :: Split s' sep
      else match Split s' sep with
           | [] => [String c EmptyString]
           | w :: ws => String c w :: ws
           end
  end.

(** [strings.Join(elems, sep)]. *)
Fixpoint Join (elems : list string) (sep : string) : string :=
  match elems with
  | [] => EmptyString
  | [w] => w
  | w :: ws => w +:+ sep +:+ Join ws sep
  end.

(** *** Decimal integers *)

Definition digit_char (d : Z) : ascii := ascii_of_nat (48 + Z.to_nat d).

Definition digit_val (c : ascii) : option Z :=
  let n := Z.of_nat (nat_of_ascii c) in
  if decide (48 <= n <= 57) then Some (n - 48) else None.

Definition is_digit (c : ascii) : Prop := is_Some (digit_val c).

(** The decimal digits of a non-negative number, most significant
    first, in front of [acc]. *)
Fixpoint digits_go (fuel : nat) (n : Z) (acc : string) : string :=
  let acc' := String (digit_char (n mod 10)) acc in
  match fuel with
  | O => acc'
  | S fuel' => if n <? 10 then acc' else digits_go fuel' (n / 10) acc'
  end.

Definition digits (n : Z) : string :=
  digits_go (Z.to_nat (Z.log2 n)) n EmptyString.

(** [fmt.Sprint(n)] and the verb [%d] for an [int]. *)
Definition Sprint_int (n : Z) : string :=
  if n <? 0 then String "-" (digits (- n)) else digits n.

Fixpoint parse_digits (acc : Z) (s : string) : option Z :=
  match s with
  | EmptyString => Some acc
  | String c s' =>
      match digit_val c with
      | Some d => parse_digits (acc * 10 + d) s'
      | None => None
      end
  end.

Definition minInt : Z := - 2 ^ 63.
Definition maxInt : Z := 2 ^ 63 - 1.

(** [strconv.Atoi(s)] on a 64-bit platform: an optional sign, then one
    or more decimal digits, the value within [int]; [None] stands for a
    non-nil error (syntax or range). *)
Definition Atoi (s : string) : option Z :=
  let '(neg, body) :=
    match s with
    | String c r =>
        if decide (c = "-"%char) then (true, r)
        else if decide (c = "+"%char) then (false, r)
        else (false, s)
    | EmptyString => (false, s)
    end in
  match body with
  | EmptyString => None
  | _ =>
      match parse_digits 0 body with
      | None => None
      | Some v =>
          let n := if neg : bool then - v else v in
          if decide (minInt <= n <= maxInt) then Some n else None
      end
  end.

(** *** [bufio.Scanner] with the default split function [ScanLines] *)

(** The bytes of a string. *)
Abbreviation chars := list_ascii_of_string.

(** A file of whole lines: empty, or ending in a line feed. *)
Definition complete_lines (content : string) : Prop :=
  content = EmptyString \/
  exists s, content = s +:+ String nl EmptyString.

(** The largest line the scanner's buffer holds ([MaxScanTokenSize],
    64 KiB, counts the line terminator). *)
Definition MaxScanTokenSize : Z := 64 * 1024.

Fixpoint drop_final_empty (l : list string) : list string :=
  match l with
  | [] => []
  | [x] => if decide (x = EmptyString) then [] else [x]
  | x :: l' => x :: drop_final_empty l'
  end.

(** The lines of a file as [ScanLines] cuts them, before the carriage
    return is dropped: the text between line feeds; a last line without
    line feed counts when it is not empty. *)
Definition raw_lines (content : string) : list string :=
  drop_final_empty (Split content nl).

Fixpoint dropCR (line : string) : string :=
  match line with
  | EmptyString => EmptyString
  | String c EmptyString => if decide (c = cr) then EmptyString else line
  | String c rest => String c (dropCR rest)
  end.

Definition fits (line : string) : bool := len line <? MaxScanTokenSize.

Fixpoint take_fitting (ls : list string) : list string :=
  match ls with
  | [] => []
  | l :: ls' => if fits l then l :: take_fitting ls' else []
  end.

(** The tokens [scanner.Scan()]/[scanner.Text()] deliver one after the
    other until [Scan] returns false: at the end of the file, or at the
    first line that does not fit the buffer ([ErrTooLong]). *)
Definition Scanner_tokens (content : string) : list string :=
  dropCR <$> take_fitting (raw_lines content).

(** [scanner.Err()] once every token was delivered. *)
Definition Scanner_err (content : string) : bool :=
  negb (forallb fits (raw_lines content)).

End GoText.
Import GoText.

(** ** Data model *)

(** A Go slice: the elements within its length, and its capacity. *)
Record slice (A : Type) : Type := Slice { elems : list A; cap : Z }.
Arguments Slice {A} _ _.
Arguments elems {A} _.
Arguments cap {A} _.

Definition slice_len {A} (s : slice A) : Z := Z.of_nat (List.length (elems s)).

(** [make([]T, 0, c)]. *)
Definition make_empty {A} (c : Z) : slice A := Slice [] c.

(** [game.Game] as the program uses it: the tag map and the positions.
    The program never changes a game once it is in [gamesOfLength], so a
    [*game.Game] is modelled by its value, and [nil] by [None]. *)
Record Game (P : Type) : Type := MkGame {
  Tags : gmap string string;
  Positions : slice P
}.
Arguments MkGame {P} _ _.
Arguments Tags {P} _.
Arguments Positions {P} _.

(** [g.Tags[key]]: a missing key reads as the empty string. *)
Definition tag {P} (g : Game P) (key : string) : string :=
  default EmptyString (Tags g !! key).

(** ** External interfaces *)

(** The rules engine: packages [game], [position] and [move] of
    [github.com/andrewbackes/chess].  [MakeMove] changes the game in place
    and returns a status and an error; here it returns the changed game as
    well. *)
Class RulesEngine : Type := {
  Move : Type;
  Move_eq_dec :: EqDecision Move;
  Null : Move;
  Move_String : Move -> string;
  Position : Type;
  LastMove : Position -> Move;
  SAN : Position -> Move -> string;
  GameStatus : Type;
  GameStatus_eq_dec :: EqDecision GameStatus;
  InProgress : GameStatus;
  EngineError : Type;
  New : Game Position;
  LegalMoves : Game Position -> list Move;
  MakeMove : Game Position -> Move ->
             Game Position * GameStatus * option EngineError;
  Status : Game Position -> GameStatus
}.

(** [math/rand]: [rand.New(rand.NewSource(seed))] and the draw of
    [Intn(n)] for a positive [n] (the value and the generator after it). *)
Class RandSource : Type := {
  Rand : Type;
  rand_New : Z -> Rand;
  rand_draw : Rand -> Z -> Z * Rand
}.

(** What Go leaves open: the order in which a [range] visits the entries
    of a map, the algorithm of [sort.Slice] (not stable), and
    [strconv.Quote], which [%#v] applies to each string of a slice. *)
Class GoRuntime : Type := {
  range_order : forall A : Type, list A -> list A;
  sort_Slice : forall A : Type, (A -> A -> bool) -> list A -> list A;
  Quote : string -> string
}.
Arguments range_order {_} {A} _.
Arguments sort_Slice {_} {A} _ _.

(** [less] is a strict weak ordering, the requirement of [sort.Slice]. *)
Record less_ok {A} (less : A -> A -> bool) : Prop := {
  less_irrefl : forall a, less a a = false;
  less_trans : forall a b c, less a b = true -> less b c = true ->
                             less a c = true;
  less_negtrans : forall a b c, less a b = false -> less b c = false ->
                                less a c = false
}.

(** No element of a sorted slice is less than an earlier one. *)
Definition sorted_by {A} (less : A -> A -> bool) (l : list A) : Prop :=
  StronglySorted (fun a b => less b a = false) l.

Record RuntimeLaws (rt : GoRuntime) : Prop := {
  range_order_perm : forall A (l : list A), range_order l ≡ₚ l;
  sort_Slice_perm : forall A less (l : list A), sort_Slice less l ≡ₚ l;
  sort_Slice_sorted : forall A (less : A -> A -> bool) (l : list A),
      less_ok less -> sorted_by less (sort_Slice less l)
}.

Record RandLaws (R : RandSource) : Prop := {
  rand_draw_range : forall r n, 0 < n -> 0 <= (rand_draw r n).1 < n
}.

(** A valid move token of a storage line. *)
Definition token_ok (w : string) : Prop :=
  w <> EmptyString /\
  Forall (fun c => c <> sp /\ c <> nl /\ c <> cr) (chars w).

(** How the engine builds a game: no legal move is [move.Null]; a new
    game holds the start position, reached by no move; a move that is made
    appends the position it leads to. *)
Record EngineLaws (E : RulesEngine) : Prop := {
  LegalMoves_not_Null : forall g m, m ∈ LegalMoves g -> m <> Null;
  New_Positions : exists p0, elems (Positions New) = [p0] /\ LastMove p0 = Null;
  MakeMove_appends : forall g m g' gs,
      MakeMove g m = (g', gs, None) ->
      exists p, elems (Positions g') = elems (Positions g) ++ [p] /\
                LastMove p = m
}.

(** The legal moves of a game have distinct string forms. *)
Definition distinct_Strings (E : RulesEngine) : Prop :=
  forall g (a b : Move),
    a ∈ LegalMoves g -> b ∈ LegalMoves g ->
    Move_String a = Move_String b -> a = b.

(** The engine writes a move as one word. *)
Definition SAN_words (E : RulesEngine) : Prop :=
  forall p m, m <> Null -> token_ok (SAN p m).

(** ** The program *)

Section Program.
Context {E : RulesEngine} {R : RandSource} {rt : GoRuntime}.

Abbreviation GameT := (Game Position).

(** *** [getGameLength], [dist], [addToGamesOfLength] *)

Definition getGameLength (g : GameT) : Z :=
  if decide (slice_len (Positions g) = 0)
  then cap (Positions g) - 1
  else slice_len (Positions g) - 1.

(** Arithmetic of the 64-bit [int]. *)
Definition wrap_int (z : Z) : Z := (z + 2 ^ 63) mod 2 ^ 64 - 2 ^ 63.

Definition dist (a b : Z) : Z :=
  if a >? b then wrap_int (a - b) else wrap_int (b - a).

(** The table [gamesOfLength]: every key is present, with [nil] until a
    game is recorded for it. *)
Definition gamesOfLength0 : gmap Z (option GameT) :=
  list_to_map [(10, None); (25, None); (50, None); (100, None);
               (250, None); (500, None); (750, None)].

(** One turn of the loop of [addToGamesOfLength], at the entry
    [(l, lg)]. *)
Definition consider (g : GameT) (n : Z) (m : gmap Z (option GameT))
    (entry : Z * option GameT) : gmap Z (option GameT) :=
  match entry.2 with
  | None => <[entry.1 := Some g]> m
  | Some lg =>
      let lgn := getGameLength lg in
      if dist entry.1 n <? dist entry.1 lgn
      then <[entry.1 := Some g]> m
      else m
  end.

Definition addToGamesOfLength (g : GameT) (m : gmap Z (option GameT))
    : gmap Z (option GameT) :=
  let n := getGameLength g in
  foldl (consider g n) m (range_order (map_to_list m)).

(** The entry for the target [l] after a turn of that loop, from the
    entry [lg] before it. *)
Definition best_after (l : Z) (g : GameT) (lg : option GameT)
    : option GameT :=
  match lg with
  | None => Some g
  | Some old =>
      if dist l (getGameLength g) <? dist l (getGameLength old)
      then Some g else Some old
  end.

(** The table after the records [rs] went through
    [addToGamesOfLength], first to last. *)
Definition process (rs : list GameT) (tbl : gmap Z (option GameT))
    : gmap Z (option GameT) :=
  foldl (fun t g => addToGamesOfLength g t) tbl rs.

Definition targets : list Z := [10; 25; 50; 100; 250; 500; 750].

(** The keys of the table are the target lengths. *)
Definition keys_are_targets (tbl : gmap Z (option GameT)) : Prop :=
  forall T, is_Some (tbl !! T) <-> T ∈ targets.

(** *** [generateRandomGame] *)

(** [rnd.Intn(n)] panics unless [n] is positive. *)
Definition rand_Intn (rnd : Rand) (n : Z) : option (Z * Rand) :=
  if n <=? 0 then None else Some (rand_draw rnd n).

(** [s[k]]: a panic ([None]) when the index is out of range. *)
Definition index {A} (s : list A) (k : Z) : option A :=
  if k <? 0 then None else s !! Z.to_nat k.

Definition less_String (a b : Move) : bool :=
  String.ltb (Move_String a) (Move_String b).

(** The results of a call of [generateRandomGame]: the game
    pointer and the error it returns, or a run-time panic. *)
Inductive GenResult : Type :=
| GenReturn (g : option GameT) (err : option EngineError)
| GenPanic.

(** The loop [for gs == game.InProgress]; [None] when [fuel] turns did
    not end it. *)
Fixpoint generate_loop (fuel : nat) (g : GameT) (gs : GameStatus)
    (rnd : Rand) : option GenResult :=
  if decide (gs = InProgress) then
    match fuel with
    | O => None
    | S fuel' =>
        let movesMap := LegalMoves g in
        let movesSlice := range_order movesMap in
        let movesSlice := sort_Slice less_String movesSlice in
        match rand_Intn rnd (Z.of_nat (List.length movesSlice)) with
        | None => Some GenPanic
        | Some (k, rnd') =>
            match index movesSlice k with
            | None => Some GenPanic
            | Some m =>
                match MakeMove g m with
                | (_, _, Some err) => Some (GenReturn None (Some err))
                | (g', gs', None) => generate_loop fuel' g' gs' rnd'
                end
            end
        end
    end
  else Some (GenReturn (Some g) None).

(** [game.New()] with the tag of the seed. *)
Definition new_game (seed : Z) : GameT :=
  MkGame (<["#" := Sprint_int seed]> (Tags New)) (Positions New).

Definition generateRandomGame (fuel : nat) (seed : Z) : option GenResult :=
  generate_loop fuel (new_game seed) InProgress (rand_New seed).

(** *** [getSANMoves], [storeGame] *)

Fixpoint san_from (prev : Position) (ps : list Position) : list string :=
  match ps with
  | [] => []
  | p :: ps' =>
      (if decide (LastMove p = Null) then []
       else [SAN prev (LastMove p)]) ++ san_from p ps'
  end.

(** [None] is a panic: [make] with capacity [-1] for a game without
    positions, or [g.Positions[-1]] when the first position has a last
    move. *)
Definition getSANMoves (g : GameT) : option (list string) :=
  match elems (Positions g) with
  | [] => None
  | p0 :: ps =>
      if decide (LastMove p0 = Null) then Some (san_from p0 ps) else None
  end.

(** A game as the engine builds it: the start position, reached by no
    move, and after it the position each move led to. *)
Definition played (g : GameT) : Prop :=
  exists p0 ps, elems (Positions g) = p0 :: ps /\ LastMove p0 = Null /\
                Forall (fun p => LastMove p <> Null) ps.

(** The text of a storage line, without its line feed. *)
Definition line_text (k : Z) (sanMoves : list string) : string :=
  Sprint_int k +:+ " " +:+ Join sanMoves " ".

(** The line [storeGame] writes. *)
Definition store_line (g : GameT) (sanMoves : list string) : string :=
  Sprint_int (slice_len (Positions g) - 1) +:+ " " +:+
  Join sanMoves " " +:+ String nl EmptyString.

(** [storeGame]: the storage file is open for appending, and writing and
    flushing are taken to succeed. *)
Definition storeGame (store : string) (tbl : gmap Z (option GameT))
    (g : GameT) : option (string * gmap Z (option GameT)) :=
  match getSANMoves g with
  | None => None
  | Some sanMoves =>
      Some (store +:+ store_line g sanMoves, addToGamesOfLength g tbl)
  end.

(** *** [main] *)

(** What the program logs, by call site. *)
Inductive LogEvent : Type :=
| LogParseError (line : Z)
| LogValidateError (line n moves : Z)
| LogFatalCorrupt
| LogReadError
| LogGenerating (seed : Z)
| LogFatalGenerate (err : EngineError)
| LogGameStatus (halfMoves : Z) (gs : GameStatus)
| LogSyncError
| LogWritingResults
| LogSeedError (l : Z)
| LogReplayError (err : EngineError)
| LogMovesDiffer (stored generated number : string)
| LogTarget (l : Z) (number : string) (halfMoves : Z).

(** How a run ends: [main] returns at its end, [main] returns after a
    failed sync, [log.Fatal] stops the process, a panic, or (in this
    model only) a game that [fuel] turns did not finish. *)
Inductive Exit : Type :=
| ExitEnd | ExitSyncReturn | ExitFatal | ExitPanic | ExitFuel.

(** What a run finds: the storage file, the result file of an earlier
    run if there is one, and whether the sync after storing the game of a
    seed succeeds.  Opening the two files is taken to succeed. *)
Record Env : Type := MkEnv {
  storage_in : string;
  result_in : option string;
  sync_ok : Z -> bool
}.

(** The body of the scan loop up to the stub: the corruption that is
    logged, or the stub for line [startIndex]. *)
Definition load_line (startIndex : Z) (line : string)
    : LogEvent + GameT :=
  let parts := Split line sp in
  match Atoi (hd EmptyString parts) with
  | None => inl (LogParseError startIndex)
  | Some n =>
      let moves := tl parts in
      if decide (n = Z.of_nat (List.length moves)) then
        inr (MkGame {[ "#" := Sprint_int startIndex;
                       "sanMoves" := Join moves " " ]}
                    (make_empty (n + 1)))
      else inl (LogValidateError startIndex n (Z.of_nat (List.length moves)))
  end.

(** A storage line is corrupt when its leading integer does not parse
    or differs from the number of move tokens after it. *)
Definition corrupt_line (line : string) : Prop :=
  let parts := Split line sp in
  match Atoi (hd EmptyString parts) with
  | None => True
  | Some n => n <> Z.of_nat (List.length (tl parts))
  end.

Global Instance corrupt_line_dec line : Decision (corrupt_line line).
Proof. unfold corrupt_line. destruct (Atoi _); apply _. Defined.

(** The log entry names line [j]. *)
Definition names_line (ev : LogEvent) (j : Z) : Prop :=
  ev = LogParseError j \/ exists n moves, ev = LogValidateError j n moves.

Inductive ScanResult : Type :=
| ScanFatal (tbl : gmap Z (option GameT)) (log : list LogEvent)
| ScanDone (startIndex : Z) (tbl : gmap Z (option GameT))
           (log : list LogEvent).

(** The loop [for scanner.Scan()] over the tokens still to come, and the
    check of [scanner.Err()] after it. *)
Fixpoint scan_loop (noSearches : Z) (readErr : bool) (lines : list string)
    (startIndex : Z) (tbl : gmap Z (option GameT)) : ScanResult :=
  match lines with
  | [] => ScanDone startIndex tbl (if readErr then [LogReadError] else [])
  | line :: rest =>
      match load_line startIndex line with
      | inl ev => ScanFatal tbl [ev; LogFatalCorrupt]
      | inr g =>
          let tbl := addToGamesOfLength g tbl in
          let startIndex := startIndex + 1 in
          if decide (startIndex >= noSearches)
          then ScanDone startIndex tbl []
          else scan_loop noSearches readErr rest startIndex tbl
      end
  end.

(** A finished run. *)
Record Run : Type := MkRun {
  exit : Exit;
  log : list LogEvent;
  games : gmap Z (option GameT);
  storage_out : string;
  result_out : option string
}.

Definition add_log (evs : list LogEvent) (r : Run) : Run :=
  MkRun (exit r) (evs ++ log r) (games r) (storage_out r) (result_out r).

(** [bufio.Writer] over the result file: the bytes handed to the file so
    far, and the bytes held in the buffer of 4096 bytes. *)
Record Writer : Type := MkWriter { flushed : string; buffered : string }.

Definition bufSize : Z := 4096.

(** All the bytes the writer was given. *)
Definition written (w : Writer) : string := flushed w +:+ buffered w.

(** From [w0] to [w] the writer only took more bytes, and it passed
    none on to the file if it had passed none before and all it was given
    fits the buffer. *)
Definition holds_back (w0 w : Writer) : Prop :=
  (exists out, written w = written w0 +:+ out) /\
  (flushed w0 = EmptyString -> len (written w) <= bufSize ->
   flushed w = EmptyString).

Fixpoint take_str (n : nat) (s : string) : string :=
  match n, s with
  | S n', String c s' => String c (take_str n' s')
  | _, _ => EmptyString
  end.

Fixpoint drop_str (n : nat) (s : string) : string :=
  match n, s with
  | S n', String _ s' => drop_str n' s'
  | _, _ => s
  end.

(** [writer.WriteString(s)]: [s] goes to the buffer when it fits; a
    buffer that runs full is written out, and a string larger than an
    empty buffer is written to the file as it is (older versions of the
    library cut it into pieces of the buffer's size and keep the last
    one). *)
Definition WriteString (w : Writer) (s : string) : Writer :=
  let avail := bufSize - len (buffered w) in
  if len s <=? avail then MkWriter (flushed w) (buffered w +:+ s)
  else if len (buffered w) =? 0 then MkWriter (flushed w +:+ s) EmptyString
  else
    let s1 := take_str (Z.to_nat avail) s in
    let s2 := drop_str (Z.to_nat avail) s in
    let f := flushed w +:+ buffered w +:+ s1 in
    if len s2 <=? bufSize then MkWriter f s2
    else MkWriter (f +:+ s2) EmptyString.

(** A file opened without [O_TRUNC] and without [O_APPEND], written
    from its start: the new bytes replace the old ones one for one, and
    what the old content has beyond them stays. *)
Fixpoint overwrite (old new : string) : string :=
  match new with
  | EmptyString => old
  | String c new' =>
      String c (overwrite (match old with
                           | EmptyString => EmptyString
                           | String _ old' => old'
                           end) new')
  end.

(** [%#v] of a non-nil [[]string]. *)
Definition GoSyntax_strings (l : list string) : string :=
  "[]string{" +:+ Join (Quote <$> l) ", " +:+ "}".

(** The text of the [fmt.Sprintf] of the result loop. *)
Definition result_block (number : string) (halfMoves l : Z)
    (sanMoves : list string) : string :=
  "{" +:+ String nl (String tab (String dquote
  ("Random-game-#" +:+ number +:+ "_half-moves-" +:+ Sprint_int halfMoves
   +:+ "_target-" +:+ Sprint_int l +:+
   String dquote (", " +:+ String dquote (String dquote ("," +:+
   String nl (String tab (GoSyntax_strings sanMoves +:+ "," +:+
   String nl ("}," +:+ String nl EmptyString))))))))).

(** The block [if len(g.Positions) == 0] of the result loop: a stub is
    played again from its seed and takes the tags of the stub.  The
    results are the event logged, and the exit that ends the run, or the
    game to report ([None] after [continue]). *)
Definition replay_stub (fuel : nat) (l : Z) (g : GameT)
    : list LogEvent * (Exit + option GameT) :=
  if decide (slice_len (Positions g) = 0) then
    match Atoi (tag g "#") with
    | None => ([LogSeedError l], inr None)
    | Some seed =>
        match generateRandomGame fuel seed with
        | None => ([], inl ExitFuel)
        | Some GenPanic => ([], inl ExitPanic)
        | Some (GenReturn ng err) =>
            let evs := match err with
                       | Some e => [LogReplayError e]
                       | None => []
                       end in
            match ng with
            | None => (evs, inl ExitPanic)
            | Some ng => (evs, inr (Some (MkGame (Tags g) (Positions ng))))
            end
        end
    end
  else ([], inr (Some g)).

(** One turn of the result loop, for the target length [l]. *)
Definition report_one (fuel : nat) (tbl : gmap Z (option GameT))
    (w : Writer) (l : Z) : list LogEvent * (Exit + Writer) :=
  match tbl !! l with
  | None | Some None => ([], inl ExitPanic)
  | Some (Some g) =>
      match replay_stub fuel l g with
      | (evs, inl e) => (evs, inl e)
      | (evs, inr None) => (evs, inr w)
      | (evs, inr (Some g)) =>
          match getSANMoves g with
          | None => (evs, inl ExitPanic)
          | Some sanMoves =>
              let genSanMoves := Join sanMoves " " in
              let differ :=
                if decide (tag g "sanMoves" <> EmptyString
                           /\ tag g "sanMoves" <> genSanMoves)
                then [LogMovesDiffer (tag g "sanMoves") genSanMoves
                                     (tag g "#")]
                else [] in
              let halfMoves := slice_len (Positions g) - 1 in
              (evs ++ differ ++ [LogTarget l (tag g "#") halfMoves],
               inr (WriteString w
                      (result_block (tag g "#") halfMoves l sanMoves)))
          end
      end
  end.

Fixpoint report_loop (fuel : nat) (tbl : gmap Z (option GameT))
    (lengths : list Z) (w : Writer) : list LogEvent * Exit * Writer :=
  match lengths with
  | [] => ([], ExitEnd, w)
  | l :: rest =>
      match report_one fuel tbl w l with
      | (evs, inl e) => (evs, e, w)
      | (evs, inr w') =>
          let '(evs', e, w'') := report_loop fuel tbl rest w' in
          (evs ++ evs', e, w'')
      end
  end.

(** The target lengths in ascending order. *)
Definition sorted_lengths (tbl : gmap Z (option GameT)) : list Z :=
  sort_Slice Z.ltb ((range_order (map_to_list tbl)).*1).

(** The last part of [main]: the result file is opened with
    [O_WRONLY|O_CREATE], a new [bufio.Writer] takes the blocks, and
    [main] returns; the deferred call closes the file.  The writer is not
    flushed. *)
Definition report (fuel : nat) (env : Env) (store : string)
    (tbl : gmap Z (option GameT)) : Run :=
  let old := default EmptyString (result_in env) in
  let '(evs, e, w) :=
    report_loop fuel tbl (sorted_lengths tbl)
                (MkWriter EmptyString EmptyString) in
  MkRun e (LogWritingResults :: evs) tbl store
        (Some (overwrite old (flushed w))).

(** The loop [for i := startIndex; i < noSearches; i += 1] with [k]
    turns to go, and the rest of [main] after it. *)
Fixpoint gen_loop (fuel : nat) (env : Env) (k : nat) (i : Z)
    (store : string) (tbl : gmap Z (option GameT)) : Run :=
  match k with
  | O => report fuel env store tbl
  | S k' =>
      let stop e evs :=
        MkRun e (LogGenerating i :: evs) tbl store (result_in env) in
      match generateRandomGame fuel i with
      | None => stop ExitFuel []
      | Some GenPanic => stop ExitPanic []
      | Some (GenReturn _ (Some err)) => stop ExitFatal [LogFatalGenerate err]
      | Some (GenReturn None None) => stop ExitPanic []
      | Some (GenReturn (Some g) None) =>
          let status :=
            LogGameStatus (slice_len (Positions g) - 1) (Status g) in
          match storeGame store tbl g with
          | None => stop ExitPanic [status]
          | Some (store', tbl') =>
              if sync_ok env i
              then add_log [LogGenerating i; status]
                           (gen_loop fuel env k' (i + 1) store' tbl')
              else MkRun ExitSyncReturn
                         [LogGenerating i; status; LogSyncError]
                         tbl' store' (result_in env)
          end
      end
  end.

(** [main], for a search budget [noSearches]. *)
Definition main_with (noSearches : Z) (fuel : nat) (env : Env) : Run :=
  match scan_loop noSearches (Scanner_err (storage_in env))
                  (Scanner_tokens (storage_in env)) 0 gamesOfLength0 with
  | ScanFatal tbl evs =>
      MkRun ExitFatal evs tbl (storage_in env) (result_in env)
  | ScanDone startIndex tbl evs =>
      add_log evs
        (gen_loop fuel env (Z.to_nat (noSearches - startIndex)) startIndex
                  (storage_in env) tbl)
  end.

(** [main] as it is in the source, with [noSearches := 10000]. *)
Definition main (fuel : nat) (env : Env) : Run := main_with 10000 fuel env.

(** The seeds of the generation loop, in the order of the calls: each
    call follows its log line. *)
Definition generated_seeds (evs : list LogEvent) : list Z :=
  omap (fun ev => match ev with
                  | LogGenerating i => Some i
                  | _ => None
                  end) evs.

(** The target lengths of the result loop that reached their log
    line, which comes just before the block is written. *)
Definition reported_targets (evs : list LogEvent) : list Z :=
  omap (fun ev => match ev with
                  | LogTarget l _ _ => Some l
                  | _ => None
                  end) evs.

End Program.

(** ** A small engine and runtime

    A game of Nim stands in for chess where a statement is evaluated: a
    pile of [start] tokens, a move takes one or two of them, and the game
    is over when the pile is empty.  With [broken] set, [MakeMove] refuses
    every move. *)

Module Nim.

Inductive move : Type := Take1 | Take2 | NoMove.
Inductive status : Type := Running | Over.
Record position : Type := MkPos { pile : nat; last_move : move }.

Global Instance move_eq_dec : EqDecision move.
Proof. solve_decision. Defined.
Global Instance status_eq_dec : EqDecision status.
Proof. solve_decision. Defined.

Definition current (g : Game position) : nat :=
  match last (elems (Positions g)) with
  | Some p => pile p
  | None => O
  end.

Definition legal (g : Game position) : list move :=
  match current g with
  | O => []
  | S O => [Take1]
  | _ => [Take2; Take1]
  end.

Definition amount (m : move) : nat :=
  match m with Take1 => 1 | Take2 => 2 | NoMove => 0 end.

Definition name (m : move) : string :=
  match m with Take1 => "a1" | Take2 => "b2" | NoMove => "0000" end.

Definition make (broken : bool) (g : Game position) (m : move)
    : Game position * status * option unit :=
  if broken || negb (bool_decide (m ∈ legal g)) then (g, Running, Some tt)
  else
    let p := MkPos (current g - amount m) m in
    let ps := elems (Positions g) ++ [p] in
    (MkGame (Tags g) (Slice ps (Z.of_nat (List.length ps))),
     if decide (pile p = O) then Over else Running, None).

Definition state (g : Game position) : status :=
  if decide (current g = O) then Over else Running.

Definition engine (start : nat) (broken : bool) : RulesEngine := {|
  Move := move;
  Null := NoMove;
  Move_String := name;
  Position := position;
  LastMove := last_move;
  SAN := fun _ m => name m;
  GameStatus := status;
  InProgress := Running;
  EngineError := unit;
  New := MkGame ∅ (Slice [MkPos start NoMove] 1);
  LegalMoves := legal;
  MakeMove := make broken;
  Status := state
|}.

(** A linear congruential generator. *)
Definition lcg : RandSource := {|
  Rand := Z;
  rand_New := fun seed => seed;
  rand_draw := fun r n => ((r * 5 + 3) mod n, r * 5 + 3)
|}.

Fixpoint insert_by {A} (less : A -> A -> bool) (x : A) (l : list A)
    : list A :=
  match l with
  | [] => [x]
  | y :: l' => if less x y then x :: l else y :: insert_by less x l'
  end.

Definition insertion_sort {A} (less : A -> A -> bool) (l : list A)
    : list A :=
  foldr (insert_by less) [] l.

Definition quote (s : string) : string :=
  String dquote (s +:+ String dquote EmptyString).

(** Two runtimes that visit a map in opposite orders. *)
Definition runtime : GoRuntime := {|
  range_order := fun A l => l;
  sort_Slice := @insertion_sort;
  Quote := quote
|}.

Definition runtime_rev : GoRuntime := {|
  range_order := fun A l => rev l;
  sort_Slice := @insertion_sort;
  Quote := quote
|}.

(** The stub of a storage line with [n] moves. *)
Definition stub (seed n : Z) : Game position :=
  MkGame {[ "#" := Sprint_int seed ]} (make_empty (n + 1)).

Definition three_stubs : list (Game position) :=
  [stub 0 30; stub 1 12; stub 2 8].

(** A run of [main] on a pile of five. *)
Definition run (noSearches : Z) (env : Env) : Run :=
  main_with (E := engine 5 false) (R := lcg) (rt := runtime)
            noSearches 20 env.

Definition line (s : string) : string := s +:+ String nl EmptyString.

(** The game of seed 2. *)
Definition game2 : Game position :=
  Eval vm_compute in
    match generateRandomGame (E := engine 5 false) (R := lcg)
                             (rt := runtime) 20 2 with
    | Some (GenReturn (Some g) _) => g
    | _ => New (RulesEngine := engine 5 false)
    end.

(** The storage after the seeds 0 and 1, and one with a second line
    that declares two moves and holds one. *)
Definition two_lines : string := line "3 b2 a1 b2" +:+ line "4 a1 b2 a1 a1".
Definition corrupt_store : string := line "3 b2 a1 b2" +:+ line "2 b2".

End Nim.

(** ** Notions for the further properties *)

(** The number of bytes [c] in a string. *)
Fixpoint count_char (c : ascii) (s : string) : nat :=
  match s with
  | EmptyString => O
  | String x s' => (if decide (x = c) then 1 else 0) + count_char c s'
  end.

(** No target length is without a game. *)
Definition filled {E : RulesEngine} (tbl : gmap Z (option (Game Position)))
    : Prop :=
  forall T, T ∈ targets -> exists g, tbl !! T = Some (Some g).

(** A game that the result loop can report: it holds positions, or it is
    a stub whose tag is the decimal form of a seed. *)
Definition seed_tagged {P} (g : Game P) : Prop :=
  slice_len (Positions g) <> 0 \/
  exists i, 0 <= i <= maxInt /\ tag g "#" = Sprint_int i.

Definition replayable {E : RulesEngine}
    (tbl : gmap Z (option (Game Position))) : Prop :=
  forall l g, tbl !! l = Some (Some g) -> seed_tagged g.

(** A store whose second line is as long as the scanner's buffer. *)
Definition long_store : string :=
  Nim.line "3 b2 a1 b2" +:+
  string_of_list_ascii (replicate (Z.to_nat MaxScanTokenSize) "x"%char).

(** Records of the lengths of [Nim.three_stubs], as played games would
    have them: positions instead of a capacity. *)
Definition three_games : list (Game Nim.position) :=
  (fun n => MkGame ∅ (Slice (replicate (S n) (Nim.MkPos 0 Nim.NoMove)) 0))
    <$> [30; 12; 8]%nat.

(** * Properties *)

(** ** The text functions *)

Section Text.

Lemma append_cons x (a b : string) : String x a +:+ b = String x (a +:+ b).
Proof. reflexivity. Qed.

Lemma append_nil_l (b : string) : EmptyString +:+ b = b.
Proof. reflexivity. Qed.

Lemma append_assoc (a b c : string) : (a +:+ b) +:+ c = a +:+ b +:+ c.
Proof. induction a as [|x a IH]; [done|]. by rewrite !append_cons, IH. Qed.

Lemma append_nil_r (a : string) : a +:+ EmptyString = a.
Proof. induction a as [|x a IH]; [done|]. by rewrite append_cons, IH. Qed.

Lemma chars_append (a b : string) : chars (a +:+ b) = chars a ++ chars b.
Proof.
  induction a as [|x a IH]; [done|]. rewrite append_cons. simpl.
  by rewrite IH.
Qed.

Lemma len_append (a b : string) : len (a +:+ b) = len a + len b.
Proof.
  unfold len. induction a as [|x a IH]; [by rewrite append_nil_l|].
  rewrite append_cons. simpl String.length. lia.
Qed.

(** *** [strings.Split] and [strings.Join] *)

Lemma Split_not_nil s sep : Split s sep <> [].
Proof.
  destruct s as [|c s]; simpl; [done|].
  destruct (decide (c = sep)); [done|]. by destruct (Split s sep).
Qed.

Lemma Split_no_sep w sep : sep ∉ chars w -> Split w sep = [w].
Proof.
  induction w as [|c w IH]; simpl; [done|].
  intros [Hc Hw]%not_elem_of_cons.
  rewrite decide_False by done. by rewrite IH.
Qed.

Lemma Split_append_sep a b sep :
  Split (a +:+ String sep b) sep = Split a sep ++ Split b sep.
Proof.
  induction a as [|c a IH].
  - rewrite append_nil_l. simpl. by rewrite decide_True.
  - rewrite append_cons. simpl. rewrite IH.
    destruct (decide (c = sep)); [done|].
    pose proof (Split_not_nil a sep). by destruct (Split a sep).
Qed.

Lemma Join_cons w ws sep :
  ws <> [] -> Join (w :: ws) sep = w +:+ sep +:+ Join ws sep.
Proof. by destruct ws. Qed.

Lemma Split_Join ws :
  ws <> [] -> Forall (fun w => sp ∉ chars w) ws ->
  Split (Join ws " ") sp = ws.
Proof.
  induction ws as [|w ws IH]; [done|]. intros _ Hall.
  apply Forall_cons in Hall as [Hw Hall].
  destruct (decide (ws = [])) as [->|Hne]; [by apply Split_no_sep|].
  rewrite Join_cons by done.
  change (" " +:+ Join ws " ") with (String sp (Join ws " ")).
  rewrite Split_append_sep, Split_no_sep by done.
  by rewrite IH.
Qed.

Lemma chars_Join ws sep c :
  c ∈ chars (Join ws sep) ->
  c ∈ chars sep \/ exists w, w ∈ ws /\ c ∈ chars w.
Proof.
  induction ws as [|w ws IH]; [by intros ?%elem_of_nil|].
  destruct (decide (ws = [])) as [->|Hne].
  - intros Hc. right. exists w. split; [left|done].
  - rewrite Join_cons, !chars_append, !elem_of_app by done.
    intros [Hc|[Hc|Hc]].
    + right. exists w. split; [left|done].
    + by left.
    + destruct (IH Hc) as [?|(w' & Hw' & ?)]; [by left|].
      right. exists w'. split; [by right|done].
Qed.

(** *** Decimal integers *)

Lemma digit_val_char d : 0 <= d <= 9 -> digit_val (digit_char d) = Some d.
Proof.
  intros Hd.
  assert (d = 0 \/ d = 1 \/ d = 2 \/ d = 3 \/ d = 4 \/ d = 5 \/ d = 6 \/
          d = 7 \/ d = 8 \/ d = 9) as H by lia.
  repeat (destruct H as [->|H]; [reflexivity|]). by subst.
Qed.

Lemma parse_digits_cons a c s :
  parse_digits a (String c s) =
    match digit_val c with
    | Some d => parse_digits (a * 10 + d) s
    | None => None
    end.
Proof. reflexivity. Qed.

Lemma len_cons c s : len (String c s) = len s + 1.
Proof. unfold len. simpl String.length. lia. Qed.

Lemma digits_go_spec fuel : forall n acc,
  0 <= n < 10 ^ (Z.of_nat fuel + 1) ->
  exists ds,
    digits_go fuel n acc = ds +:+ acc /\ ds <> EmptyString /\
    Forall is_digit (chars ds) /\
    forall a rest,
      parse_digits a (ds +:+ rest) = parse_digits (a * 10 ^ len ds + n) rest.
Proof.
  assert (Hone : forall n acc, 0 <= n < 10 ->
    exists ds,
      String (digit_char (n mod 10)) acc = ds +:+ acc /\
      ds <> EmptyString /\ Forall is_digit (chars ds) /\
      forall a rest,
        parse_digits a (ds +:+ rest) =
        parse_digits (a * 10 ^ len ds + n) rest).
  { intros n acc Hn. exists (String (digit_char n) EmptyString).
    rewrite Z.mod_small by done. split; [done|]. split; [done|]. split.
    - repeat constructor. unfold is_digit. by rewrite digit_val_char by lia.
    - intros a rest.
      rewrite append_cons, append_nil_l, parse_digits_cons.
      rewrite digit_val_char, len_cons by lia. f_equal. }
  induction fuel as [|fuel IH]; intros n acc Hn.
  - cbn [digits_go]. apply Hone. change (Z.of_nat 0 + 1) with 1 in Hn. lia.
  - cbn [digits_go]. destruct (n <? 10) eqn:Hlt.
    + apply Hone. lia.
    + apply Z.ltb_ge in Hlt.
      assert (Hdiv : 0 <= n / 10 < 10 ^ (Z.of_nat fuel + 1)).
      { split; [apply Z.div_pos; lia|].
        apply Z.div_lt_upper_bound; [lia|].
        replace (Z.of_nat (S fuel) + 1) with (Z.succ (Z.of_nat fuel + 1))
          in Hn by lia.
        rewrite Z.pow_succ_r in Hn by lia. lia. }
      destruct (IH (n / 10) (String (digit_char (n mod 10)) acc) Hdiv)
        as (ds & Hds & Hne & Hdig & Hparse).
      exists (ds +:+ String (digit_char (n mod 10)) EmptyString).
      assert (Hmod : 0 <= n mod 10 <= 9)
        by (pose proof (Z.mod_pos_bound n 10); lia).
      split; [by rewrite append_assoc|].
      split; [by destruct ds|]. split.
      * rewrite chars_append. apply Forall_app. split; [done|].
        repeat constructor. unfold is_digit. by rewrite digit_val_char.
      * intros a rest. rewrite append_assoc, append_cons, append_nil_l.
        rewrite Hparse, parse_digits_cons, digit_val_char by done. f_equal.
        rewrite len_append, len_cons.
        change (len EmptyString) with 0.
        rewrite Z.pow_add_r by (unfold len; lia).
        pose proof (Z.div_mod n 10). lia.
Qed.

Lemma digits_spec n :
  0 <= n ->
  digits n <> EmptyString /\ Forall is_digit (chars (digits n)) /\
  parse_digits 0 (digits n) = Some n.
Proof.
  intros Hn. unfold digits.
  destruct (digits_go_spec (Z.to_nat (Z.log2 n)) n EmptyString)
    as (ds & Hds & Hne & Hdig & Hparse).
  - split; [done|]. rewrite Z2Nat.id by apply Z.log2_nonneg.
    destruct (decide (n = 0)) as [->|Hn0]; [done|].
    pose proof (Z.log2_spec n) as [_ Hlt]; [lia|].
    eapply Z.lt_le_trans; [exact Hlt|].
    replace (Z.succ (Z.log2 n)) with (Z.log2 n + 1) by lia.
    apply Z.pow_le_mono_l. lia.
  - rewrite Hds, append_nil_r. split; [done|]. split; [done|].
    specialize (Hparse 0 EmptyString). rewrite append_nil_r in Hparse.
    by rewrite Hparse.
Qed.

(** [strconv.Atoi] reads back what [fmt.Sprint] prints for a
    non-negative [int]. *)
Lemma Atoi_Sprint_int n : 0 <= n <= maxInt -> Atoi (Sprint_int n) = Some n.
Proof.
  intros Hn. unfold Sprint_int.
  destruct (n <? 0) eqn:Hneg; [apply Z.ltb_lt in Hneg; lia|].
  destruct (digits_spec n) as (Hne & Hdig & Hparse); [lia|].
  unfold Atoi. destruct (digits n) as [|c s]; [done|].
  apply Forall_cons in Hdig as [Hc _].
  rewrite !decide_False.
  - rewrite Hparse. cbv iota.
    rewrite decide_True; [done|]. unfold minInt, maxInt in *. lia.
  - intros ->. by destruct Hc.
  - intros ->. by destruct Hc.
Qed.

Lemma chars_Sprint_int n c :
  0 <= n -> c ∈ chars (Sprint_int n) -> is_digit c.
Proof.
  intros Hn. unfold Sprint_int.
  destruct (n <? 0) eqn:Hneg; [apply Z.ltb_lt in Hneg; lia|].
  destruct (digits_spec n) as (_ & Hdig & _); [lia|].
  rewrite Forall_forall in Hdig. apply Hdig.
Qed.

(** *** The scanner *)

Lemma drop_final_empty_snoc_empty l :
  drop_final_empty (l ++ [EmptyString]) = l.
Proof.
  induction l as [|x l IH]; [done|].
  destruct l as [|y l]; [done|].
  change (drop_final_empty ((x :: y :: l) ++ [EmptyString]))
    with (x :: drop_final_empty ((y :: l) ++ [EmptyString])).
  by rewrite IH.
Qed.

Lemma drop_final_empty_snoc l x :
  x <> EmptyString -> drop_final_empty (l ++ [x]) = l ++ [x].
Proof.
  intros Hx. induction l as [|y l IH]; simpl; [by rewrite decide_False|].
  rewrite IH. by destruct l.
Qed.

Lemma raw_lines_append store l :
  complete_lines store -> nl ∉ chars l ->
  raw_lines (store +:+ l +:+ String nl EmptyString) = raw_lines store ++ [l].
Proof.
  intros Hstore Hl. unfold raw_lines.
  assert (Hline : Split (l +:+ String nl EmptyString) nl = [l; EmptyString]).
  { rewrite Split_append_sep. by rewrite Split_no_sep. }
  destruct Hstore as [->|[s ->]].
  - rewrite append_nil_l, Hline. simpl. by destruct l.
  - rewrite append_assoc, append_cons, append_nil_l.
    rewrite (Split_append_sep s (l +:+ String nl EmptyString)), Hline.
    rewrite (Split_append_sep s EmptyString). simpl Split.
    rewrite drop_final_empty_snoc_empty.
    change [l; EmptyString] with ([l] ++ [EmptyString]).
    by rewrite app_assoc, drop_final_empty_snoc_empty.
Qed.

Lemma dropCR_no_cr l : cr ∉ chars l -> dropCR l = l.
Proof.
  induction l as [|c l IH]; [done|]. simpl chars.
  intros [Hc Hl]%not_elem_of_cons. simpl.
  destruct l as [|c' l]; [by rewrite decide_False|].
  by rewrite IH.
Qed.

Lemma take_fitting_all ls : forallb fits ls = true -> take_fitting ls = ls.
Proof.
  induction ls as [|l ls IH]; simpl; [done|].
  intros [-> Hls]%andb_true_iff. by rewrite IH.
Qed.

(** A whole line appended to a file of whole lines that the scanner
    reads to its end is the one token more. *)
Lemma Scanner_append store l :
  complete_lines store -> Scanner_err store = false ->
  nl ∉ chars l -> cr ∉ chars l -> fits l = true ->
  let store' := store +:+ l +:+ String nl EmptyString in
  Scanner_tokens store' = Scanner_tokens store ++ [l] /\
  Scanner_err store' = false /\ complete_lines store'.
Proof.
  intros Hstore Herr Hnl Hcr Hfits. cbv zeta.
  unfold Scanner_tokens, Scanner_err in *.
  apply negb_false_iff in Herr.
  rewrite raw_lines_append by done.
  assert (Hall : forallb fits (raw_lines store ++ [l]) = true).
  { rewrite forallb_app, Herr. simpl. by rewrite Hfits. }
  rewrite Hall, !take_fitting_all, fmap_app by done. simpl.
  rewrite dropCR_no_cr by done. repeat split.
  right. exists (store +:+ l). by rewrite append_assoc.
Qed.

Lemma len_nonneg s : 0 <= len s.
Proof. unfold len. lia. Qed.

Lemma len_Join ws sep :
  Forall (fun w => w <> EmptyString) ws ->
  Z.of_nat (List.length ws) <= len (Join ws sep).
Proof.
  induction ws as [|w ws IH]; [done|]. intros [Hw Hws]%Forall_cons.
  assert (1 <= len w).
  { destruct w as [|c w]; [done|]. rewrite len_cons.
    pose proof (len_nonneg w). lia. }
  destruct (decide (ws = [])) as [->|Hne]; [simpl; lia|].
  rewrite Join_cons, !len_append by done.
  pose proof (len_nonneg sep). specialize (IH Hws).
  simpl List.length. lia.
Qed.

End Text.

(** ** The closest-length selector *)

Section Selector.
Context {E : RulesEngine} {rt : GoRuntime}.
Hypothesis laws : RuntimeLaws rt.

Abbreviation GameT := (Game Position).

Lemma wrap_int_small z : minInt <= z <= maxInt -> wrap_int z = z.
Proof.
  unfold wrap_int, minInt, maxInt. intros Hz.
  rewrite Z.mod_small; lia.
Qed.

Lemma dist_abs a b :
  0 <= a <= maxInt -> 0 <= b <= maxInt -> dist a b = Z.abs (a - b).
Proof.
  intros Ha Hb. unfold dist.
  destruct (a >? b) eqn:Hab; rewrite wrap_int_small;
    unfold minInt, maxInt in *; lia.
Qed.

Lemma consider_other g n acc e l :
  l <> e.1 -> consider g n acc e !! l = acc !! l.
Proof.
  intros Hne. unfold consider.
  destruct e.2; [destruct (_ <? _)|]; rewrite ?lookup_insert_ne; auto.
Qed.

Lemma consider_here g acc k v :
  acc !! k = Some v ->
  consider g (getGameLength g) acc (k, v) !! k = Some (best_after k g v).
Proof.
  intros Hk. unfold consider, best_after. simpl.
  destruct v as [old|]; [destruct (_ <? _)|];
    rewrite ?lookup_insert_eq; auto.
Qed.

(** The loop over entries with distinct keys that the table holds
    changes each of them by [best_after], whatever their order. *)
Lemma foldl_consider_lookup g es : forall acc l,
  NoDup es.*1 ->
  (forall k v, (k, v) ∈ es -> acc !! k = Some v) ->
  foldl (consider g (getGameLength g)) acc es !! l =
    match list_find (fun e => e.1 = l) es with
    | Some (_, e) => Some (best_after l g e.2)
    | None => acc !! l
    end.
Proof.
  induction es as [|[k v] es IH]; intros acc l Hnd Hin; [done|].
  simpl in Hnd. apply NoDup_cons in Hnd as [Hk Hnd].
  cbn [foldl]. rewrite IH; [|done|].
  - cbn [list_find]. simpl. destruct (decide (k = l)) as [->|Hne].
    + destruct (list_find _ es) as [[i e]|] eqn:Hf.
      * apply list_find_Some in Hf as (Hi & He & _).
        exfalso. apply Hk. rewrite <- He.
        apply list_elem_of_fmap. exists e. split; [done|].
        by eapply list_elem_of_lookup_2.
      * simpl. apply consider_here, Hin. left.
    + destruct (list_find _ es) as [[i e]|]; simpl; [done|].
      apply consider_other. simpl. congruence.
  - intros k' v' Hin'. rewrite consider_other.
    + apply Hin. by right.
    + simpl. intros ->. apply Hk. apply list_elem_of_fmap.
      by exists (k, v').
Qed.

Lemma addToGamesOfLength_lookup g (m : gmap Z (option GameT)) l :
  addToGamesOfLength g m !! l = best_after l g <$> m !! l.
Proof.
  unfold addToGamesOfLength.
  pose proof (range_order_perm rt laws _ (map_to_list m)) as Hp.
  rewrite foldl_consider_lookup.
  - destruct (list_find _ _) as [[i [k v]]|] eqn:Hf.
    + apply list_find_Some in Hf as (Hi & He & _). simpl in He. subst k.
      apply list_elem_of_lookup_2 in Hi. rewrite Hp in Hi.
      apply elem_of_map_to_list in Hi. by rewrite Hi.
    + destruct (m !! l) as [v|] eqn:Hl; [|done].
      exfalso. apply elem_of_map_to_list in Hl. rewrite <- Hp in Hl.
      apply list_find_None in Hf. rewrite Forall_forall in Hf.
      by apply (Hf _ Hl).
  - rewrite Hp. apply NoDup_fst_map_to_list.
  - intros k v Hin. rewrite Hp in Hin. by apply elem_of_map_to_list.
Qed.

Lemma process_snoc rs g (tbl : gmap Z (option GameT)) :
  process (rs ++ [g]) tbl = addToGamesOfLength g (process rs tbl).
Proof. unfold process. by rewrite foldl_app. Qed.

Lemma targets_in_range T : T ∈ targets -> 0 <= T <= maxInt.
Proof.
  unfold targets, maxInt. rewrite !elem_of_cons, elem_of_nil. lia.
Qed.

Lemma gamesOfLength0_lookup T :
  T ∈ targets -> (gamesOfLength0 : gmap Z (option GameT)) !! T = Some None.
Proof.
  unfold targets. rewrite !elem_of_cons, elem_of_nil.
  intros [->|[->|[->|[->|[->|[->|[->|[]]]]]]]]; reflexivity.
Qed.

(** C1. Closest-length selection.  After the records [rs] went through
    [addToGamesOfLength] one after the other, starting from the table of
    the program, the entry of every target length [T] is the first
    record of [rs] whose distance [|length - T|] is least: no record of
    [rs] is closer, and every record before it is strictly farther.  A
    turn of the loop adopts the record when the entry is [nil], and
    otherwise exactly when its distance is strictly smaller.  The
    lengths are those of Go, non-negative [int]s, for which [dist] is
    the absolute difference. *)
Theorem selector_keeps_first_closest (T : Z) (rs : list GameT) :
  T ∈ targets ->
  (forall r, r ∈ rs -> 0 <= getGameLength r <= maxInt) ->
  (forall r, r ∈ rs -> dist T (getGameLength r) = Z.abs (getGameLength r - T))
  /\ (forall (tbl : gmap Z (option GameT)) g,
        tbl !! T = Some None ->
        addToGamesOfLength g tbl !! T = Some (Some g))
  /\ (forall (tbl : gmap Z (option GameT)) g old,
        tbl !! T = Some (Some old) ->
        addToGamesOfLength g tbl !! T =
          Some (Some (if dist T (getGameLength g) <?
                         dist T (getGameLength old) then g else old)))
  /\ (rs = [] -> process rs gamesOfLength0 !! T = Some None)
  /\ (rs <> [] ->
      exists (i : nat) (best : GameT),
        process rs gamesOfLength0 !! T = Some (Some best) /\
        rs !! i = Some best /\
        (forall r, r ∈ rs ->
           Z.abs (getGameLength best - T) <= Z.abs (getGameLength r - T)) /\
        (forall (j : nat) r, (j < i)%nat -> rs !! j = Some r ->
           Z.abs (getGameLength best - T) < Z.abs (getGameLength r - T))).
Proof.
  intros HT Hrange.
  pose proof (targets_in_range T HT) as HTr.
  assert (Hdist : forall r, r ∈ rs ->
            dist T (getGameLength r) = Z.abs (getGameLength r - T)).
  { intros r Hr. rewrite dist_abs; [lia|done|by apply Hrange]. }
  split; [exact Hdist|].
  split. { intros tbl g Ht. by rewrite addToGamesOfLength_lookup, Ht. }
  split.
  { intros tbl g old Ht. rewrite addToGamesOfLength_lookup, Ht. simpl.
    by destruct (_ <? _). }
  split. { intros ->. by apply gamesOfLength0_lookup. }
  revert Hrange Hdist. induction rs as [|g rs IH] using rev_ind; [done|].
  intros Hrange Hdist _. rewrite process_snoc, addToGamesOfLength_lookup.
  assert (Hg : g ∈ rs ++ [g]) by (apply elem_of_app; right; left).
  destruct (decide (rs = [])) as [->|Hne].
  - simpl. rewrite gamesOfLength0_lookup by done. simpl.
    exists O, g. repeat split; [|lia].
    intros r Hr. apply list_elem_of_singleton in Hr as ->. lia.
  - destruct IH as (i & best & Hbest & Hi & Hmin & Hfirst); [| |done|].
    { intros r Hr. apply Hrange, elem_of_app. by left. }
    { intros r Hr. apply Hdist, elem_of_app. by left. }
    rewrite Hbest. simpl.
    assert (Hb : best ∈ rs ++ [g]).
    { apply elem_of_app. left. by eapply list_elem_of_lookup_2. }
    rewrite (Hdist g Hg), (Hdist best Hb).
    destruct (_ <? _) eqn:Hlt.
    + apply Z.ltb_lt in Hlt. exists (List.length rs), g.
      split; [done|]. split; [by rewrite list_lookup_middle|]. split.
      * intros r [Hr|Hr]%elem_of_app.
        -- specialize (Hmin r Hr). lia.
        -- apply list_elem_of_singleton in Hr as ->. lia.
      * intros j r Hj Hr. rewrite lookup_app_l in Hr by done.
        apply list_elem_of_lookup_2 in Hr. specialize (Hmin r Hr). lia.
    + apply Z.ltb_ge in Hlt. exists i, best.
      split; [done|]. split; [by apply lookup_app_l_Some|]. split.
      * intros r [Hr|Hr]%elem_of_app; [by apply Hmin|].
        apply list_elem_of_singleton in Hr as ->. lia.
      * intros j r Hj Hr. apply (Hfirst j r Hj).
        apply lookup_lt_Some in Hi.
        rewrite lookup_app_l in Hr by lia. done.
Qed.

End Selector.

(** ** The result file *)

Section Report.
Context {E : RulesEngine} {R : RandSource} {rt : GoRuntime}.

Abbreviation GameT := (Game Position).

Lemma take_drop_str n s : take_str n s +:+ drop_str n s = s.
Proof.
  revert s. induction n as [|n IH]; intros [|c s]; simpl; try done.
  by rewrite append_cons, IH.
Qed.

Lemma len_zero s : len s = 0 -> s = EmptyString.
Proof. destruct s; [done|]. rewrite len_cons. pose proof (len_nonneg s). lia. Qed.

Lemma WriteString_written w s : written (WriteString w s) = written w +:+ s.
Proof.
  unfold WriteString, written.
  destruct (len s <=? _); simpl; [by rewrite append_assoc|].
  destruct (len (buffered w) =? 0) eqn:Hb; simpl.
  - apply Z.eqb_eq, len_zero in Hb. by rewrite Hb, !append_nil_r.
  - destruct (len _ <=? bufSize); simpl;
      by rewrite ?append_nil_r, !append_assoc, take_drop_str.
Qed.

(** As long as everything given to the writer fits its buffer, nothing
    reaches the file. *)
Lemma WriteString_buffers w s :
  flushed w = EmptyString -> len (written w +:+ s) <= bufSize ->
  flushed (WriteString w s) = EmptyString.
Proof.
  unfold written, WriteString. intros Hf. rewrite Hf, append_nil_l.
  rewrite len_append. intros Hlen.
  destruct (len s <=? bufSize - len (buffered w)) eqn:Hfit; [done|].
  apply Z.leb_gt in Hfit. lia.
Qed.

Lemma holds_back_refl w : holds_back w w.
Proof. split; [|done]. exists EmptyString. by rewrite append_nil_r. Qed.

Lemma holds_back_trans w0 w1 w2 :
  holds_back w0 w1 -> holds_back w1 w2 -> holds_back w0 w2.
Proof.
  intros [[o1 H1] F1] [[o2 H2] F2]. split.
  - exists (o1 +:+ o2). by rewrite H2, H1, append_assoc.
  - intros H0 Hlen. apply F2; [|done]. apply F1; [done|].
    rewrite H2, len_append in Hlen. pose proof (len_nonneg o2). lia.
Qed.

Lemma holds_back_WriteString w s : holds_back w (WriteString w s).
Proof.
  split; [exists s; apply WriteString_written|].
  intros Hf Hlen. apply WriteString_buffers; [done|].
  by rewrite <- WriteString_written.
Qed.

Lemma report_one_writer fuel tbl w l evs w' :
  report_one fuel tbl w l = (evs, inr w') -> holds_back w w'.
Proof.
  unfold report_one. destruct (tbl !! l) as [[g|]|]; [|done|done].
  destruct (replay_stub fuel l g) as [evs0 [e|[g'|]]]; [done| |].
  - destruct (getSANMoves g'); [|done]. intros [= _ <-].
    apply holds_back_WriteString.
  - intros [= _ <-]. apply holds_back_refl.
Qed.

Lemma report_loop_writer fuel tbl ls : forall w evs e w',
  report_loop fuel tbl ls w = (evs, e, w') -> holds_back w w'.
Proof.
  induction ls as [|l ls IH]; intros w evs e w'; simpl.
  - intros [= _ _ <-]. apply holds_back_refl.
  - destruct (report_one fuel tbl w l) as [evs1 [e1|w1]] eqn:Hone.
    + intros [= _ _ <-]. apply holds_back_refl.
    + destruct (report_loop fuel tbl ls w1) as [[evs2 e2] w2] eqn:Hloop.
      intros [= _ _ <-]. eapply holds_back_trans.
      * by eapply report_one_writer.
      * by eapply IH.
Qed.

(** The result phase leaves in the file the bytes the writer passed on
    by itself, over the old content; what is in its buffer at the end is
    in no file.  When all the blocks together fit the buffer, the file
    is as it was before the run (empty if it was new). *)
Lemma report_result_file fuel env store tbl :
  exists evs w,
    report_loop fuel tbl (sorted_lengths tbl)
                (MkWriter EmptyString EmptyString) =
      (evs, exit (report fuel env store tbl), w) /\
    result_out (report fuel env store tbl) =
      Some (overwrite (default EmptyString (result_in env)) (flushed w)) /\
    (len (written w) <= bufSize ->
     result_out (report fuel env store tbl) =
       Some (default EmptyString (result_in env))).
Proof.
  unfold report.
  destruct (report_loop _ _ _ _) as [[evs e] w] eqn:Hloop. simpl.
  exists evs, w. split; [done|]. split; [done|].
  intros Hlen. apply report_loop_writer in Hloop as [_ Hf].
  by rewrite Hf.
Qed.

(** *** The order of the result loop *)

Hypothesis rlaws : RuntimeLaws rt.

Lemma ltb_ok : less_ok Z.ltb.
Proof.
  split.
  - apply Z.ltb_irrefl.
  - intros a b c ?%Z.ltb_lt ?%Z.ltb_lt. apply Z.ltb_lt. lia.
  - intros a b c ?%Z.ltb_ge ?%Z.ltb_ge. apply Z.ltb_ge. lia.
Qed.

Lemma gamesOfLength0_keys : keys_are_targets (gamesOfLength0 (E := E)).
Proof.
  intros T. split.
  - intros [v Hv]. destruct (decide (T ∈ targets)) as [|Hn]; [done|].
    exfalso. unfold targets in Hn. rewrite !not_elem_of_cons in Hn.
    destruct Hn as (? & ? & ? & ? & ? & ? & ? & _).
    unfold gamesOfLength0 in Hv. simpl in Hv.
    rewrite !lookup_insert_ne in Hv by done.
    by rewrite lookup_empty in Hv.
  - intros HT. rewrite (gamesOfLength0_lookup T HT). eauto.
Qed.

Lemma addToGamesOfLength_keys g (tbl : gmap Z (option GameT)) :
  keys_are_targets tbl -> keys_are_targets (addToGamesOfLength g tbl).
Proof.
  intros Hk T. rewrite <- (Hk T), (addToGamesOfLength_lookup rlaws).
  by rewrite fmap_is_Some.
Qed.

(** The result loop goes through the target lengths in ascending
    order. *)
Lemma sorted_lengths_ascending (tbl : gmap Z (option GameT)) :
  keys_are_targets tbl -> sorted_lengths tbl = targets.
Proof.
  intros Hk. unfold sorted_lengths.
  eapply (StronglySorted_unique_strong (fun a b : Z => (b <? a) = false)).
  - intros x1 x2 _ _ ?%Z.ltb_ge ?%Z.ltb_ge. lia.
  - apply (sort_Slice_sorted rt rlaws), ltb_ok.
  - unfold targets. repeat constructor.
  - rewrite (sort_Slice_perm rt rlaws), (range_order_perm rt rlaws).
    apply NoDup_Permutation.
    + apply NoDup_fst_map_to_list.
    + unfold targets. repeat constructor; rewrite ?elem_of_cons, elem_of_nil; lia.
    + intros T. rewrite <- (Hk T). rewrite list_elem_of_fmap. split.
      * intros ([k v] & -> & Hin). apply elem_of_map_to_list in Hin. eauto.
      * intros [v Hv]. exists (T, v). split; [done|].
        by apply elem_of_map_to_list.
Qed.

Lemma reported_targets_app (a b : list LogEvent) :
  reported_targets (a ++ b) = reported_targets a ++ reported_targets b.
Proof. apply omap_app. Qed.

Lemma replay_stub_targets fuel l (g : GameT) :
  reported_targets (replay_stub fuel l g).1 = [].
Proof. unfold replay_stub. by repeat case_match. Qed.

Lemma report_one_targets fuel tbl w l :
  reported_targets (report_one fuel tbl w l).1 `sublist_of` [l].
Proof.
  unfold report_one. destruct (tbl !! l) as [[g|]|]; [|by constructor..].
  pose proof (replay_stub_targets fuel l g) as H.
  destruct (replay_stub fuel l g) as [evs [e|[g'|]]]; simpl in *;
    rewrite ?H; try apply sublist_nil_l.
  destruct (getSANMoves g'); simpl; rewrite ?H; [|apply sublist_nil_l].
  rewrite !reported_targets_app, H. by destruct (decide _).
Qed.

Lemma report_loop_targets fuel tbl ls : forall w,
  reported_targets (report_loop fuel tbl ls w).1.1 `sublist_of` ls.
Proof.
  induction ls as [|l ls IH]; intros w; simpl; [done|].
  pose proof (report_one_targets fuel tbl w l) as H.
  destruct (report_one fuel tbl w l) as [evs [e|w']]; simpl in *.
  - etrans; [exact H|]. apply sublist_skip, sublist_nil_l.
  - specialize (IH w').
    destruct (report_loop fuel tbl ls w') as [[evs' e] w'']; simpl in *.
    rewrite reported_targets_app.
    change (l :: ls) with ([l] ++ ls). by apply sublist_app.
Qed.

(** The blocks a run hands to the writer are those of target lengths in
    ascending order. *)
Lemma report_ascending fuel env store (tbl : gmap Z (option GameT)) :
  keys_are_targets tbl ->
  reported_targets (log (report fuel env store tbl)) `sublist_of` targets.
Proof.
  intros Hk. unfold report.
  pose proof (report_loop_targets fuel tbl (sorted_lengths tbl)
                (MkWriter EmptyString EmptyString)) as H.
  rewrite (sorted_lengths_ascending tbl Hk) in H |- *.
  destruct (report_loop _ _ _ _) as [[evs e] w]. simpl in *. exact H.
Qed.

End Report.

(** ** The small engine and runtime keep the laws *)

Section NimLaws.

Lemma insert_by_perm {A} (less : A -> A -> bool) x l :
  Nim.insert_by less x l ≡ₚ x :: l.
Proof.
  induction l as [|y l IH]; simpl; [done|].
  destruct (less x y); [done|]. rewrite IH. apply Permutation_swap.
Qed.

Lemma insertion_sort_perm {A} (less : A -> A -> bool) l :
  Nim.insertion_sort less l ≡ₚ l.
Proof.
  induction l as [|x l IH]; simpl; [done|].
  rewrite insert_by_perm. by rewrite IH.
Qed.

Lemma insert_by_sorted {A} (less : A -> A -> bool) x l :
  less_ok less -> sorted_by less l ->
  sorted_by less (Nim.insert_by less x l).
Proof.
  intros [Hirr Htr Hneg]. unfold sorted_by.
  induction l as [|y l IH]; intros Hs; simpl.
  - by repeat constructor.
  - apply StronglySorted_inv in Hs as [Hs Hy].
    destruct (less x y) eqn:Hxy.
    + assert (Hyx : less y x = false).
      { destruct (less y x) eqn:Hyx; [|done].
        by rewrite <- (Hirr x), (Htr x y x Hxy Hyx). }
      constructor; [by constructor|].
      constructor; [done|].
      eapply Forall_impl; [exact Hy|]. intros b Hb. simpl in Hb.
      by apply (Hneg b y x).
    + constructor; [by apply IH|].
      rewrite insert_by_perm. by constructor.
Qed.

Lemma insertion_sort_sorted {A} (less : A -> A -> bool) l :
  less_ok less -> sorted_by less (Nim.insertion_sort less l).
Proof.
  intros Hok. induction l as [|x l IH]; simpl; [constructor|].
  by apply insert_by_sorted.
Qed.

Lemma nim_runtime_laws : RuntimeLaws Nim.runtime.
Proof.
  split; simpl.
  - done.
  - intros A less l. apply insertion_sort_perm.
  - intros A less l. apply insertion_sort_sorted.
Qed.

Lemma nim_runtime_rev_laws : RuntimeLaws Nim.runtime_rev.
Proof.
  split; simpl.
  - intros A l. symmetry. apply Permutation_rev.
  - intros A less l. apply insertion_sort_perm.
  - intros A less l. apply insertion_sort_sorted.
Qed.

Lemma nim_lcg_laws : RandLaws Nim.lcg.
Proof. split. intros r n Hn. simpl. apply Z.mod_pos_bound. lia. Qed.

Lemma nim_name_token m : token_ok (Nim.name m).
Proof. split; [by destruct m|]. destruct m; by repeat constructor. Qed.

Lemma nim_engine_laws start : EngineLaws (Nim.engine start false).
Proof.
  split; simpl.
  - intros g m. unfold Nim.legal. destruct (Nim.current g) as [|[|n]];
      rewrite ?elem_of_cons, ?elem_of_nil; intuition (subst; done).
  - eexists. split; reflexivity.
  - intros g m g' gs. unfold Nim.make. simpl.
    destruct (negb _); [done|]. intros [= <- _]. simpl.
    eexists. split; reflexivity.
Qed.

Lemma nim_SAN_words start : SAN_words (Nim.engine start false).
Proof. intros p m _. apply nim_name_token. Qed.

End NimLaws.

(** ** The selector on three records *)

(** Records of 30, 12 and 8 half-moves, target 10: the second and the
    third are both at distance 2, and the second is kept. *)
Lemma selector_keeps_first_closest_witness :
  10 ∈ targets /\
  (forall r, r ∈ Nim.three_stubs ->
     0 <= getGameLength (E := Nim.engine 5 false) r <= maxInt) /\
  exists (i : nat) best,
    process (E := Nim.engine 5 false) (rt := Nim.runtime)
      Nim.three_stubs gamesOfLength0 !! 10 = Some (Some best) /\
    Nim.three_stubs !! i = Some best /\
    (forall r, r ∈ Nim.three_stubs ->
       Z.abs (getGameLength (E := Nim.engine 5 false) best - 10) <=
       Z.abs (getGameLength (E := Nim.engine 5 false) r - 10)) /\
    (forall (j : nat) r, (j < i)%nat -> Nim.three_stubs !! j = Some r ->
       Z.abs (getGameLength (E := Nim.engine 5 false) best - 10) <
       Z.abs (getGameLength (E := Nim.engine 5 false) r - 10)).
Proof.
  assert (H10 : 10 ∈ targets) by (unfold targets; set_solver).
  assert (Hr : forall r, r ∈ Nim.three_stubs ->
            0 <= getGameLength (E := Nim.engine 5 false) r <= maxInt).
  { intros r. unfold Nim.three_stubs.
    rewrite !elem_of_cons, elem_of_nil.
    intros [->|[->|[->|[]]]]; vm_compute; split; discriminate. }
  split; [exact H10|]. split; [exact Hr|].
  destruct (selector_keeps_first_closest (E := Nim.engine 5 false)
              nim_runtime_laws 10 Nim.three_stubs H10 Hr)
    as (_ & _ & _ & _ & Hbest).
  apply Hbest. discriminate.
Defined.

Example selector_three_stubs :
  process (E := Nim.engine 5 false) (rt := Nim.runtime_rev)
    Nim.three_stubs gamesOfLength0 !! 10 = Some (Some (Nim.stub 1 12)).
Proof. vm_compute. reflexivity. Qed.

(** ** The seeded game generator *)

Section Generator.
Context {E : RulesEngine} {R : RandSource}.

Abbreviation GameT := (Game Position).

Lemma ltb_negb_leb a b : String.ltb a b = negb (String.leb b a).
Proof.
  unfold String.ltb, String.leb. rewrite (String.compare_antisym b a).
  by destruct (String.compare a b).
Qed.

Lemma less_String_false a b :
  less_String a b = false <-> String.le (Move_String b) (Move_String a).
Proof.
  unfold less_String, String.le. rewrite ltb_negb_leb.
  destruct (String.leb _ _); simpl; intuition done.
Qed.

Lemma less_String_ok : less_ok less_String.
Proof.
  split.
  - intros a. by apply less_String_false.
  - intros a b c Hab Hbc.
    destruct (less_String a c) eqn:Hac; [done|].
    apply less_String_false in Hac.
    destruct (total String.le (Move_String a) (Move_String b)) as [H|H].
    + assert (Hcb : String.le (Move_String c) (Move_String b))
        by (by etrans).
      apply less_String_false in Hcb. congruence.
    + apply less_String_false in H. congruence.
  - intros a b c Hab Hbc. apply less_String_false.
    apply less_String_false in Hab, Hbc. by etrans.
Qed.

(** Sorted by their distinct string forms, the legal moves come in one
    order only, whatever the order of the [range] and the algorithm of
    the sort. *)
Lemma sorted_moves_canonical (rt1 rt2 : GoRuntime) (moves : list Move) :
  (forall a b : Move, a ∈ moves -> b ∈ moves ->
                      Move_String a = Move_String b -> a = b) ->
  RuntimeLaws rt1 -> RuntimeLaws rt2 ->
  sort_Slice (GoRuntime := rt1) less_String
             (range_order (GoRuntime := rt1) moves) =
  sort_Slice (GoRuntime := rt2) less_String
             (range_order (GoRuntime := rt2) moves).
Proof.
  intros Hinj L1 L2.
  eapply (StronglySorted_unique_strong
            (fun a b : Move => less_String b a = false)).
  - intros x1 x2 Hx1 Hx2 H1 H2.
    rewrite (sort_Slice_perm rt1 L1), (range_order_perm rt1 L1) in Hx1.
    rewrite (sort_Slice_perm rt2 L2), (range_order_perm rt2 L2) in Hx2.
    apply Hinj; [done|done|].
    apply less_String_false in H1, H2.
    by apply (anti_symm String.le).
  - apply (sort_Slice_sorted rt1 L1), less_String_ok.
  - apply (sort_Slice_sorted rt2 L2), less_String_ok.
  - rewrite (sort_Slice_perm rt1 L1), (range_order_perm rt1 L1).
    by rewrite (sort_Slice_perm rt2 L2), (range_order_perm rt2 L2).
Qed.

Lemma generate_loop_runtime (rt1 rt2 : GoRuntime) :
  distinct_Strings E ->
  RuntimeLaws rt1 -> RuntimeLaws rt2 ->
  forall fuel g gs rnd,
    generate_loop (rt := rt1) fuel g gs rnd =
    generate_loop (rt := rt2) fuel g gs rnd.
Proof.
  intros Hinj L1 L2. induction fuel as [|fuel IH]; intros g gs rnd; [done|].
  simpl. rewrite (sorted_moves_canonical rt1 rt2); [|by apply Hinj|done..].
  destruct (decide (gs = InProgress)); [|done].
  destruct (rand_Intn _ _) as [[k rnd']|]; [|done].
  destruct (index _ k) as [m|]; [|done].
  destruct (MakeMove g m) as [[g' gs'] [err|]]; [done|]. apply IH.
Qed.

(** More fuel does not change the result of a call that finished. *)
Lemma generate_loop_fuel {rt : GoRuntime} fuel : forall fuel' g gs rnd res,
  generate_loop fuel g gs rnd = Some res -> (fuel <= fuel')%nat ->
  generate_loop fuel' g gs rnd = Some res.
Proof.
  induction fuel as [|fuel IH]; intros fuel' g gs rnd res.
  - simpl. destruct (decide (gs = InProgress)) as [Hgs|Hgs]; [done|].
    intros Hres _. destruct fuel'; simpl; by rewrite decide_False.
  - intros Hres Hle. destruct fuel' as [|fuel']; [lia|].
    simpl in *. destruct (decide (gs = InProgress)); [|done].
    destruct (rand_Intn _ _) as [[k rnd']|]; [|done].
    destruct (index _ k) as [m|]; [|done].
    destruct (MakeMove g m) as [[g' gs'] [err|]]; [done|].
    apply IH; [done|lia].
Qed.

(** C2. Determinism of generation.  With an engine whose legal moves
    have distinct string forms, the result of [generateRandomGame seed] is the
    same under any two runtimes that keep the contracts of [range] and
    [sort.Slice]: it does not depend on the order in which the legal-move
    map is visited, nor on the sorting algorithm.  Two calls that finish
    return the same game and error, so the same move list and the same
    half-move count. *)
Theorem generateRandomGame_deterministic (rt1 rt2 : GoRuntime) (seed : Z) :
  distinct_Strings E ->
  RuntimeLaws rt1 -> RuntimeLaws rt2 ->
  (forall fuel,
     generateRandomGame (rt := rt1) fuel seed =
     generateRandomGame (rt := rt2) fuel seed) /\
  (forall fuel1 fuel2 res1 res2,
     generateRandomGame (rt := rt1) fuel1 seed = Some res1 ->
     generateRandomGame (rt := rt2) fuel2 seed = Some res2 ->
     res1 = res2 /\
     forall g1 g2,
       res1 = GenReturn (Some g1) None -> res2 = GenReturn (Some g2) None ->
       getSANMoves g1 = getSANMoves g2 /\
       slice_len (Positions g1) - 1 = slice_len (Positions g2) - 1).
Proof.
  intros Hinj L1 L2. unfold generateRandomGame. split.
  - intros fuel. by apply generate_loop_runtime.
  - intros fuel1 fuel2 res1 res2 H1 H2.
    apply (generate_loop_fuel _ (fuel1 `max` fuel2)%nat) in H1; [|lia].
    apply (generate_loop_fuel _ (fuel1 `max` fuel2)%nat) in H2; [|lia].
    rewrite (generate_loop_runtime rt1 rt2) in H1 by done.
    assert (res1 = res2) as -> by congruence.
    split; [done|]. intros g1 g2 -> [= ->]. done.
Qed.

Context {rt : GoRuntime}.
Hypothesis rlaws : RuntimeLaws rt.

Lemma sorted_moves_length (moves : list Move) :
  List.length (sort_Slice less_String (range_order moves)) =
  List.length moves.
Proof.
  by rewrite (sort_Slice_perm rt rlaws), (range_order_perm rt rlaws).
Qed.

(** Without a legal move the draw is [rnd.Intn(0)], which panics. *)
Lemma generate_loop_no_moves fuel g rnd :
  LegalMoves g = [] ->
  generate_loop (S fuel) g InProgress rnd = Some GenPanic.
Proof.
  intros Hnil. simpl. rewrite decide_True by done.
  by rewrite sorted_moves_length, Hnil.
Qed.

(** With a generator that draws within its bound, [generateRandomGame]
    panics in no other case: some game in progress had no legal move. *)
Lemma generate_loop_panic fuel : forall g gs rnd,
  RandLaws R ->
  generate_loop fuel g gs rnd = Some GenPanic ->
  exists g', LegalMoves g' = [].
Proof.
  induction fuel as [|fuel IH]; intros g gs rnd HR; simpl;
    destruct (decide (gs = InProgress)) as [Hgs|Hgs]; try done.
  unfold rand_Intn. rewrite sorted_moves_length.
  destruct (_ <=? 0) eqn:Hn.
  - intros _. exists g. apply Z.leb_le in Hn.
    destruct (LegalMoves g); [done|simpl in Hn; lia].
  - apply Z.leb_gt in Hn.
    pose proof (rand_draw_range R HR rnd _ Hn) as Hk.
    destruct (rand_draw rnd _) as [k rnd']. simpl in Hk.
    unfold index. destruct (k <? 0) eqn:Hneg; [apply Z.ltb_lt in Hneg; lia|].
    destruct (lookup_lt_is_Some_2
                (sort_Slice less_String (range_order (LegalMoves g)))
                (Z.to_nat k)) as [m ->].
    { rewrite sorted_moves_length. lia. }
    destruct (MakeMove g m) as [[g1 gs1] [e|]]; [done|]. by apply IH.
Qed.

(** C6, as the code has it.  When the engine reports no legal move for
    the new game, [generateRandomGame] panics in the first turn of its
    loop, at the random draw: it does not loop, and it returns neither a
    game nor an error. *)
Theorem generateRandomGame_no_legal_moves (seed : Z) (fuel : nat) :
  LegalMoves (new_game seed) = [] ->
  (0 < fuel)%nat ->
  generateRandomGame fuel seed = Some GenPanic.
Proof.
  intros Hnil Hfuel. destruct fuel as [|fuel]; [lia|].
  by apply generate_loop_no_moves.
Qed.

Hypothesis elaws : EngineLaws E.

Lemma index_elem_of {A} (l : list A) k x : index l k = Some x -> x ∈ l.
Proof.
  unfold index. destruct (k <? 0); [done|].
  apply list_elem_of_lookup_2.
Qed.

Lemma new_game_played seed : played (new_game seed).
Proof.
  destruct (New_Positions E elaws) as (p0 & Hp & Hnull).
  exists p0, []. simpl. by rewrite Hp.
Qed.

(** The loop keeps the game well built, and a game it returns has at
    least the positions it started from, more when the loop was entered. *)
Lemma generate_loop_played fuel : forall g gs rnd g' err,
  played g ->
  generate_loop fuel g gs rnd = Some (GenReturn (Some g') err) ->
  played g' /\ err = None /\
  (List.length (elems (Positions g)) <=
     List.length (elems (Positions g')))%nat /\
  (gs = InProgress ->
   (List.length (elems (Positions g)) <
      List.length (elems (Positions g')))%nat).
Proof.
  induction fuel as [|fuel IH]; intros g gs rnd g' err Hg; simpl.
  - destruct (decide (gs = InProgress)); [done|].
    intros [= <- <-]. repeat split; auto. done.
  - destruct (decide (gs = InProgress)) as [Hgs|Hgs].
    2:{ intros [= <- <-]. repeat split; auto. done. }
    destruct (rand_Intn _ _) as [[k rnd']|]; [|done].
    destruct (index _ k) as [m|] eqn:Hm; [|done].
    destruct (MakeMove g m) as [[g1 gs1] [e|]] eqn:Hmk; [done|].
    intros Hloop.
    destruct (MakeMove_appends E elaws _ _ _ _ Hmk) as (p & Hp & Hl).
    assert (Hnn : m <> Null).
    { apply (LegalMoves_not_Null E elaws g).
      apply index_elem_of in Hm.
      by rewrite (sort_Slice_perm rt rlaws),
                 (range_order_perm rt rlaws) in Hm. }
    assert (Hg1 : played g1).
    { destruct Hg as (p0 & ps & Hps & H0 & Hall).
      exists p0, (ps ++ [p]). rewrite Hp, Hps. split; [done|].
      split; [done|]. apply Forall_app. split; [done|].
      constructor; [congruence|constructor]. }
    destruct (IH _ _ _ _ _ Hg1 Hloop) as (Hpl & He & Hle & _).
    rewrite Hp, length_app in Hle. simpl in Hle.
    repeat split; auto; try congruence; lia.
Qed.

(** A game that [generateRandomGame] returns holds the start position
    and at least one move. *)
Lemma generated_played fuel seed g err :
  generateRandomGame fuel seed = Some (GenReturn (Some g) err) ->
  played g /\ err = None /\ 2 <= slice_len (Positions g).
Proof.
  intros Hgen.
  destruct (generate_loop_played _ _ _ _ _ _ (new_game_played seed) Hgen)
    as (Hpl & He & _ & Hlt).
  specialize (Hlt eq_refl).
  destruct (New_Positions E elaws) as (p0 & Hp & _).
  simpl in Hlt. rewrite Hp in Hlt. simpl in Hlt.
  repeat split; auto. unfold slice_len. lia.
Qed.

(** C8. Stub length invariant.  The stub the scan builds for a storage
    line has no position and capacity [n + 1] for the declared length
    [n], and [getGameLength] returns [n] for it; for a record with
    [k > 0] positions [getGameLength] returns [k - 1], and the games
    [generateRandomGame] returns are such records. *)
Theorem getGameLength_stub_and_generated :
  (forall (startIndex : Z) (line : string) (g : GameT),
     load_line startIndex line = inr g ->
     exists n, Atoi (hd EmptyString (Split line sp)) = Some n /\
               Positions g = make_empty (n + 1) /\
               getGameLength g = n) /\
  (forall (g : GameT) (k : Z),
     slice_len (Positions g) = k -> 0 < k -> getGameLength g = k - 1) /\
  (forall fuel seed (g : GameT) err,
     generateRandomGame fuel seed = Some (GenReturn (Some g) err) ->
     0 < slice_len (Positions g) /\
     getGameLength g = slice_len (Positions g) - 1).
Proof.
  assert (Hfull : forall (g : GameT) (k : Z),
            slice_len (Positions g) = k -> 0 < k ->
            getGameLength g = k - 1).
  { intros g k Hk Hpos. unfold getGameLength.
    rewrite decide_False by lia. by rewrite Hk. }
  split; [|split; [exact Hfull|]].
  - intros startIndex line g. unfold load_line.
    destruct (Atoi _) as [n|]; [|done].
    destruct (decide _); [|done]. intros [= <-].
    exists n. repeat split. unfold getGameLength. simpl. lia.
  - intros fuel seed g err Hgen.
    destruct (generated_played _ _ _ _ Hgen) as (_ & _ & Hlen).
    split; [lia|]. apply Hfull; [done|lia].
Qed.

End Generator.

(** ** The generator on the small engine *)

Lemma nim_distinct_Strings start : distinct_Strings (Nim.engine start false).
Proof. intros g a b _ _. destruct a, b; simpl; congruence. Qed.

(** Seed 3 on a pile of five, the map visited in either order. *)
Lemma generateRandomGame_deterministic_witness :
  distinct_Strings (Nim.engine 5 false) /\
  RuntimeLaws Nim.runtime /\ RuntimeLaws Nim.runtime_rev /\
  generateRandomGame (E := Nim.engine 5 false) (R := Nim.lcg)
                     (rt := Nim.runtime) 10 3 =
  generateRandomGame (E := Nim.engine 5 false) (R := Nim.lcg)
                     (rt := Nim.runtime_rev) 10 3.
Proof.
  split; [exact (nim_distinct_Strings 5)|].
  split; [exact nim_runtime_laws|]. split; [exact nim_runtime_rev_laws|].
  apply (generateRandomGame_deterministic (E := Nim.engine 5 false)
           Nim.runtime Nim.runtime_rev 3 (nim_distinct_Strings 5)
           nim_runtime_laws nim_runtime_rev_laws).
Defined.

(** An empty pile: no legal move in the new game. *)
Lemma generateRandomGame_no_legal_moves_witness :
  LegalMoves (RulesEngine := Nim.engine 0 false) (new_game 7) = [] /\
  (0 < 1)%nat /\
  generateRandomGame (E := Nim.engine 0 false) (R := Nim.lcg)
                     (rt := Nim.runtime) 1 7 = Some GenPanic.
Proof.
  split; [reflexivity|]. split; [lia|].
  apply (generateRandomGame_no_legal_moves (E := Nim.engine 0 false)
           nim_runtime_laws 7 1); [reflexivity|lia].
Defined.

(** C6 as stated fails: on an empty pile the engine reports no legal
    move for the new game, and no call of [generateRandomGame], whatever
    its fuel, returns a game. *)
Lemma no_legal_moves_counterexample :
  LegalMoves (RulesEngine := Nim.engine 0 false) (new_game 7) = [] /\
  forall fuel,
    ~ exists g err,
        generateRandomGame (E := Nim.engine 0 false) (R := Nim.lcg)
                           (rt := Nim.runtime) fuel 7 =
          Some (GenReturn (Some g) err).
Proof.
  split; [reflexivity|]. intros [|fuel] (g & err & Hgen).
  - discriminate Hgen.
  - unfold generateRandomGame in Hgen.
    rewrite (generate_loop_no_moves nim_runtime_laws) in Hgen by reflexivity.
    discriminate Hgen.
Qed.

(** The stub of the line of a game of three moves, and the game of
    seed 0 on a pile of five. *)
Lemma getGameLength_stub_and_generated_witness :
  RuntimeLaws Nim.runtime /\ EngineLaws (Nim.engine 5 false) /\
  (forall g, load_line (E := Nim.engine 5 false) 0 "3 b2 a1 b2" = inr g ->
     getGameLength g = 3) /\
  (forall g err,
     generateRandomGame (E := Nim.engine 5 false) (R := Nim.lcg)
                        (rt := Nim.runtime) 10 0 =
       Some (GenReturn (Some g) err) ->
     getGameLength g = 3).
Proof.
  split; [exact nim_runtime_laws|]. split; [exact (nim_engine_laws 5)|].
  destruct (getGameLength_stub_and_generated (E := Nim.engine 5 false)
              (R := Nim.lcg) nim_runtime_laws (nim_engine_laws 5))
    as (Hstub & _ & Hgen).
  split.
  - intros g Hg. destruct (Hstub _ _ _ Hg) as (n & Hn & _ & Hlen).
    vm_compute in Hn. congruence.
  - intros g err Hg. destruct (Hgen _ _ _ _ Hg) as [_ ->].
    vm_compute in Hg. by injection Hg as <- <-.
Defined.

(** ** The run of [main] *)

Section Main.
Context {E : RulesEngine} {R : RandSource} {rt : GoRuntime}.

Abbreviation GameT := (Game Position).

Lemma load_line_corrupt startIndex line :
  corrupt_line line <->
  exists ev, load_line startIndex line = inl ev /\ names_line ev startIndex.
Proof.
  unfold corrupt_line, load_line, names_line.
  destruct (Atoi _) as [n|].
  - destruct (decide _) as [Heq|Hne].
    + split; [done|]. by intros (ev & [=] & _).
    + split; [|done]. intros _. eexists. split; [done|]. right. eauto.
  - split; [|done]. intros _. eexists. split; [done|]. by left.
Qed.

Lemma load_line_intact startIndex line :
  ~ corrupt_line line -> exists g, load_line startIndex line = inr g.
Proof.
  intros Hok. destruct (load_line startIndex line) as [ev|g] eqn:Hl; [|eauto].
  exfalso. apply Hok. apply (load_line_corrupt startIndex).
  exists ev. split; [done|]. unfold load_line in Hl.
  destruct (Atoi _); [destruct (decide _)|]; simplify_eq;
    unfold names_line; eauto.
Qed.

(** The scan stops at the first corrupt line among those it reaches. *)
Lemma scan_loop_corrupt noSearches readErr lines :
  forall startIndex tbl (i : nat) line,
    lines !! i = Some line -> corrupt_line line ->
    startIndex + Z.of_nat i < noSearches ->
    exists tbl' ev (j : nat) line',
      scan_loop noSearches readErr lines startIndex tbl =
        ScanFatal tbl' [ev; LogFatalCorrupt] /\
      names_line ev (startIndex + Z.of_nat j) /\ (j <= i)%nat /\
      lines !! j = Some line' /\ corrupt_line line'.
Proof.
  induction lines as [|l lines IH]; intros startIndex tbl i line Hi Hc Hlt;
    [done|].
  simpl. destruct (load_line startIndex l) as [ev|g] eqn:Hl.
  - exists tbl, ev, O, l. split; [done|].
    assert (Hcl : corrupt_line l /\ names_line ev startIndex).
    { unfold load_line in Hl. unfold corrupt_line, names_line.
      destruct (Atoi _); [destruct (decide _)|]; simplify_eq; eauto. }
    rewrite Z.add_0_r. repeat split; try tauto. lia.
  - destruct i as [|i].
    + simpl in Hi. simplify_eq.
      apply (load_line_corrupt startIndex) in Hc as (ev & Hev & _).
      congruence.
    + simpl in Hi. rewrite decide_False by lia.
      destruct (IH (startIndex + 1) (addToGamesOfLength g tbl) i line)
        as (tbl' & ev & j & line' & Hs & Hn & Hj & Hline & Hcl);
        [done|done|lia|].
      exists tbl', ev, (S j), line'. split; [done|].
      replace (startIndex + Z.of_nat (S j))
        with (startIndex + 1 + Z.of_nat j) by lia.
      repeat split; auto. lia.
Qed.

(** C5. Corruption is fatal and detected before generation.  When a
    line the scan reaches (one of the first [noSearches] lines the
    scanner delivers) has an unparseable leading integer or a declared
    length that differs from its number of move tokens, the run ends by
    [log.Fatalf]: the log holds one entry, which names the first corrupt
    line, and the fatal message; no seed is generated, and both files
    are as they were. *)
Theorem corruption_is_fatal (noSearches : Z) (fuel : nat) (env : Env)
    (i : nat) (line : string) :
  Scanner_tokens (storage_in env) !! i = Some line ->
  Z.of_nat i < noSearches ->
  corrupt_line line ->
  let r := main_with noSearches fuel env in
  exit r = ExitFatal /\
  (exists ev (j : nat) line',
      log r = [ev; LogFatalCorrupt] /\ names_line ev (Z.of_nat j) /\
      (j <= i)%nat /\
      Scanner_tokens (storage_in env) !! j = Some line' /\
      corrupt_line line') /\
  generated_seeds (log r) = [] /\
  storage_out r = storage_in env /\
  result_out r = result_in env.
Proof.
  intros Hi Hlt Hc. simpl. unfold main_with.
  destruct (scan_loop_corrupt noSearches (Scanner_err (storage_in env))
              _ 0 gamesOfLength0 i line Hi Hc)
    as (tbl' & ev & j & line' & -> & Hn & Hj & Hl & Hcl); [lia|].
  simpl. split; [done|]. split; [by exists ev, j, line'|].
  split; [|done]. by destruct Hn as [->|(n & m & ->)].
Qed.

(** *** The seeds of the generation loop *)

Ltac log_solver :=
  repeat split; try done;
  rewrite ?not_elem_of_app, ?not_elem_of_cons;
  repeat split; auto using not_elem_of_nil; try done.

Lemma generated_seeds_app (a b : list LogEvent) :
  generated_seeds (a ++ b) = generated_seeds a ++ generated_seeds b.
Proof. apply omap_app. Qed.

Lemma add_log_nil (r : Run) : add_log [] r = r.
Proof. by destruct r. Qed.

Lemma add_log_app a b (r : Run) :
  add_log a (add_log b r) = add_log (a ++ b) r.
Proof. unfold add_log. simpl. by rewrite app_assoc. Qed.

Lemma seqZ_S (i : Z) (n : nat) :
  seqZ i (Z.of_nat (S n)) = i :: seqZ (i + 1) (Z.of_nat n).
Proof.
  rewrite seqZ_cons by lia. f_equal. f_equal; lia.
Qed.

Lemma replay_stub_seeds fuel l (g : GameT) :
  generated_seeds (replay_stub fuel l g).1 = [].
Proof. unfold replay_stub. by repeat case_match. Qed.

Lemma report_one_seeds fuel tbl w l :
  generated_seeds (report_one fuel tbl w l).1 = [].
Proof.
  unfold report_one. destruct (tbl !! l) as [[g|]|]; [|done|done].
  pose proof (replay_stub_seeds fuel l g) as H.
  destruct (replay_stub fuel l g) as [evs [e|[g'|]]]; simpl in *;
    [done| |done].
  destruct (getSANMoves g'); simpl; [|done].
  rewrite !generated_seeds_app, H. by destruct (decide _).
Qed.

Lemma report_loop_seeds fuel tbl ls : forall w,
  generated_seeds (report_loop fuel tbl ls w).1.1 = [].
Proof.
  induction ls as [|l ls IH]; intros w; simpl; [done|].
  pose proof (report_one_seeds fuel tbl w l) as H.
  destruct (report_one fuel tbl w l) as [evs [e|w']]; simpl in *; [done|].
  specialize (IH w').
  destruct (report_loop fuel tbl ls w') as [[evs' e] w'']; simpl in *.
  by rewrite generated_seeds_app, H, IH.
Qed.

Lemma report_seeds fuel env store tbl :
  generated_seeds (log (report fuel env store tbl)) = [].
Proof.
  unfold report.
  pose proof (report_loop_seeds fuel tbl (sorted_lengths tbl)
                (MkWriter EmptyString EmptyString)) as H.
  by destruct (report_loop _ _ _ _) as [[evs e] w].
Qed.

(** Whatever happens, the loop calls [generateRandomGame] for
    consecutive seeds from its first one. *)
Lemma gen_loop_seeds fuel env k : forall i store tbl,
  exists n : nat, (n <= k)%nat /\
    generated_seeds (log (gen_loop fuel env k i store tbl)) =
      seqZ i (Z.of_nat n).
Proof.
  induction k as [|k IH]; intros i store tbl.
  - exists O. split; [lia|]. apply report_seeds.
  - simpl.
    destruct (generateRandomGame fuel i) as [[[g|] [err|]|]|];
      try (exists 1%nat; split; [lia|done]).
    destruct (storeGame store tbl g) as [[store' tbl']|];
      [|exists 1%nat; split; [lia|done]].
    destruct (sync_ok env i); [|exists 1%nat; split; [lia|done]].
    destruct (IH (i + 1) store' tbl') as (n & Hn & Hs).
    exists (S n). split; [lia|]. simpl. by rewrite Hs, seqZ_S.
Qed.

Lemma scan_done_seeds noSearches readErr lines : forall startIndex tbl s t evs,
  scan_loop noSearches readErr lines startIndex tbl = ScanDone s t evs ->
  generated_seeds evs = [] /\ (LogSyncError ∉ evs) /\
  (LogWritingResults ∉ evs).
Proof.
  induction lines as [|l lines IH]; intros startIndex tbl s t evs; simpl.
  - intros [= <- <- <-]. destruct readErr; log_solver.
  - destruct (load_line startIndex l); [done|].
    destruct (decide _); [|apply IH].
    intros [= <- <- <-]. log_solver.
Qed.

Lemma scan_loop_intact noSearches readErr lines : forall startIndex tbl,
  Forall (fun l => ~ corrupt_line l) lines ->
  startIndex < noSearches ->
  exists tbl' evs,
    scan_loop noSearches readErr lines startIndex tbl =
      ScanDone (Z.min (startIndex + Z.of_nat (List.length lines)) noSearches)
               tbl' evs.
Proof.
  induction lines as [|l lines IH]; intros startIndex tbl Hall Hlt; simpl.
  - eexists _, _. f_equal. lia.
  - apply Forall_cons in Hall as [Hl Hall].
    destruct (load_line_intact startIndex l Hl) as [g ->].
    destruct (decide _).
    + eexists _, _. f_equal. lia.
    + destruct (IH (startIndex + 1) (addToGamesOfLength g tbl) Hall)
        as (tbl' & evs & ->); [lia|].
      eexists _, _. f_equal. lia.
Qed.

Lemma generate_loop_error fuel : forall (g : GameT) gs rnd ng err,
  generate_loop fuel g gs rnd = Some (GenReturn ng (Some err)) -> ng = None.
Proof.
  induction fuel as [|fuel IH]; intros g gs rnd ng err; simpl;
    destruct (decide (gs = InProgress)) as [Hgs|Hgs]; try done.
  destruct (rand_Intn _ _) as [[k rnd']|]; [|done].
  destruct (index _ k) as [m|]; [|done].
  destruct (MakeMove g m) as [[g' gs'] [e'|]]; [by intros [= <- _]|].
  apply IH.
Qed.

(** C10. Replay error path.  In the result loop, when the entry of a
    target length is a stub with a readable seed and
    [generateRandomGame] returns an error for that seed, the game it
    returns is [nil]; the error is logged, and the assignment to the
    tags of that game panics: the run ends there, with nothing written
    for this target or the ones after it. *)
Theorem replay_error_dereferences_nil (fuel : nat)
    (tbl : gmap Z (option GameT)) (w : Writer) (l : Z) (rest : list Z)
    (g : GameT) (seed : Z) (ng : option GameT) (err : EngineError) :
  tbl !! l = Some (Some g) ->
  slice_len (Positions g) = 0 ->
  Atoi (tag g "#") = Some seed ->
  generateRandomGame fuel seed = Some (GenReturn ng (Some err)) ->
  ng = None /\
  report_one fuel tbl w l = ([LogReplayError err], inl ExitPanic) /\
  report_loop fuel tbl (l :: rest) w = ([LogReplayError err], ExitPanic, w).
Proof.
  intros Hl Hlen Hseed Hgen.
  assert (ng = None) as -> by (by eapply generate_loop_error).
  assert (Hone : report_one fuel tbl w l =
                   ([LogReplayError err], inl ExitPanic)).
  { unfold report_one, replay_stub.
    by rewrite Hl, decide_True, Hseed, Hgen by done. }
  split; [done|]. split; [done|]. simpl. by rewrite Hone.
Qed.

Context (elaws : EngineLaws E) (rlaws : RuntimeLaws rt).

Lemma played_getSANMoves (g : GameT) :
  played g -> exists sanMoves, getSANMoves g = Some sanMoves.
Proof.
  intros (p0 & ps & Hps & H0 & _). unfold getSANMoves.
  rewrite Hps, decide_True by done. eauto.
Qed.

(** [n] turns of the loop in which the game is returned and the sync
    succeeds. *)
Lemma gen_loop_run fuel env (n : nat) : forall k i store tbl,
  (n <= k)%nat ->
  (forall j, i <= j < i + Z.of_nat n ->
     exists g, generateRandomGame fuel j = Some (GenReturn (Some g) None) /\
               sync_ok env j = true) ->
  exists evs store' tbl',
    gen_loop fuel env k i store tbl =
      add_log evs (gen_loop fuel env (k - n) (i + Z.of_nat n) store' tbl') /\
    generated_seeds evs = seqZ i (Z.of_nat n) /\
    (LogSyncError ∉ evs) /\ (LogWritingResults ∉ evs).
Proof.
  induction n as [|n IH]; intros k i store tbl Hk Hok.
  - exists [], store, tbl. rewrite add_log_nil, Nat.sub_0_r, Z.add_0_r.
    log_solver.
  - destruct k as [|k]; [lia|].
    destruct (Hok i) as (g & Hg & Hsync); [lia|].
    destruct (generated_played rlaws elaws _ _ _ _ Hg) as (Hpl & _).
    destruct (played_getSANMoves g Hpl) as [sanMoves Hsan].
    destruct (IH k (i + 1) (store +:+ store_line g sanMoves)
                (addToGamesOfLength g tbl))
      as (evs & store' & tbl' & Hrun & Hseeds & Hns & Hnw); [lia| |].
    { intros j Hj. apply Hok. lia. }
    eexists _, store', tbl'.
    cbn [gen_loop]. rewrite Hg. unfold storeGame. rewrite Hsan, Hsync.
    rewrite Hrun, add_log_app.
    replace (i + 1 + Z.of_nat n) with (i + Z.of_nat (S n)) by lia.
    replace (S k - S n)%nat with (k - n)%nat by lia.
    split; [done|]. split; [|log_solver].
    simpl. by rewrite Hseeds, seqZ_S.
Qed.

(** *** The blocks of a whole run *)

Lemma scan_done_keys noSearches readErr lines :
  forall startIndex (tbl : gmap Z (option GameT)) s t evs,
    scan_loop noSearches readErr lines startIndex tbl = ScanDone s t evs ->
    keys_are_targets tbl ->
    keys_are_targets t /\ reported_targets evs = [].
Proof.
  induction lines as [|l lines IH]; intros startIndex tbl s t evs; simpl.
  - intros [= <- <- <-] Hk. by destruct readErr.
  - destruct (load_line startIndex l) as [|g]; [done|].
    destruct (decide _).
    + intros [= <- <- <-] Hk. split; [|done].
      by apply addToGamesOfLength_keys.
    + intros Hs Hk. eapply IH; [exact Hs|].
      by apply addToGamesOfLength_keys.
Qed.

Lemma scan_fatal_targets noSearches readErr lines :
  forall startIndex (tbl : gmap Z (option GameT)) t evs,
    scan_loop noSearches readErr lines startIndex tbl = ScanFatal t evs ->
    reported_targets evs = [].
Proof.
  induction lines as [|l lines IH]; intros startIndex tbl t evs; simpl;
    [done|].
  destruct (load_line startIndex l) as [ev|g] eqn:Hl.
  - intros [= _ <-]. unfold load_line in Hl.
    destruct (Atoi _); [destruct (decide _)|]; by simplify_eq.
  - destruct (decide _); [done|]. apply IH.
Qed.

Lemma gen_loop_targets fuel env k :
  forall i store (tbl : gmap Z (option GameT)),
    keys_are_targets tbl ->
    reported_targets (log (gen_loop fuel env k i store tbl))
      `sublist_of` targets.
Proof.
  induction k as [|k IH]; intros i store tbl Hk.
  - by apply report_ascending.
  - simpl.
    destruct (generateRandomGame fuel i) as [[[g|] [err|]|]|];
      try apply sublist_nil_l.
    unfold storeGame. destruct (getSANMoves g); [|apply sublist_nil_l].
    destruct (sync_ok env i); [|apply sublist_nil_l].
    simpl. apply IH. by apply addToGamesOfLength_keys.
Qed.

(** Whatever the run, the blocks handed to the writer of the result
    file are those of target lengths in ascending order. *)
Lemma main_reports_ascending noSearches fuel env :
  reported_targets (log (main_with noSearches fuel env))
    `sublist_of` targets.
Proof.
  unfold main_with.
  destruct (scan_loop _ _ _ _ _) as [tbl evs|start tbl evs] eqn:Hscan.
  - simpl. rewrite (scan_fatal_targets _ _ _ _ _ _ _ Hscan).
    apply sublist_nil_l.
  - destruct (scan_done_keys _ _ _ _ _ _ _ _ Hscan (gamesOfLength0_keys))
      as [Hk Hevs].
    unfold add_log. simpl. rewrite reported_targets_app, Hevs. simpl.
    by apply gen_loop_targets.
Qed.

Lemma tokens_all_lines content :
  Scanner_err content = false ->
  List.length (Scanner_tokens content) = List.length (raw_lines content).
Proof.
  unfold Scanner_err, Scanner_tokens. rewrite length_fmap.
  generalize (raw_lines content). intros ls Hall.
  apply negb_false_iff in Hall.
  induction ls as [|l ls IH]; simpl in *; [done|].
  apply andb_true_iff in Hall as [-> Hall]. simpl. by rewrite IH.
Qed.

(** C3. Resumption.  On an intact storage file (every line is read and
    none is corrupt) the generation loop starts at the number of lines
    scanned, which is the number of lines of the file or the budget
    [noSearches] if the file has more.  The seeds passed to
    [generateRandomGame] are consecutive from there and stay below the
    budget, so none is skipped and none is a seed the store holds a line
    for; when every game is returned and every sync succeeds they are all
    the seeds up to the budget. *)
Theorem resumption_from_scanned_lines (noSearches : Z) (fuel : nat)
    (env : Env) :
  0 < noSearches ->
  Scanner_err (storage_in env) = false ->
  Forall (fun l => ~ corrupt_line l) (Scanner_tokens (storage_in env)) ->
  let lines := Z.of_nat (List.length (raw_lines (storage_in env))) in
  let start := Z.min lines noSearches in
  let r := main_with noSearches fuel env in
  (exists n : nat,
      generated_seeds (log r) = seqZ start (Z.of_nat n) /\
      start + Z.of_nat n <= noSearches) /\
  (forall i, i ∈ generated_seeds (log r) -> lines <= i < noSearches) /\
  ((forall i, start <= i < noSearches ->
      exists g, generateRandomGame fuel i = Some (GenReturn (Some g) None) /\
                sync_ok env i = true) ->
   generated_seeds (log r) = seqZ start (noSearches - start)).
Proof.
  intros Hpos Herr Hall. cbv zeta.
  rewrite <- (tokens_all_lines _ Herr).
  set (lines := Z.of_nat (List.length (Scanner_tokens (storage_in env)))).
  set (start := Z.min lines noSearches).
  unfold main_with.
  destruct (scan_loop_intact noSearches (Scanner_err (storage_in env))
              _ 0 gamesOfLength0 Hall Hpos) as (tbl & evs & Hscan).
  rewrite Z.add_0_l in Hscan. fold lines start in Hscan. rewrite Hscan.
  destruct (scan_done_seeds _ _ _ _ _ _ _ _ Hscan) as (Hevs & _).
  unfold add_log. cbn [log]. rewrite generated_seeds_app, Hevs. simpl.
  set (k := Z.to_nat (noSearches - start)).
  assert (Hpre : exists n : nat,
            generated_seeds
              (log (gen_loop fuel env k start (storage_in env) tbl)) =
              seqZ start (Z.of_nat n) /\ start + Z.of_nat n <= noSearches).
  { destruct (gen_loop_seeds fuel env k start (storage_in env) tbl)
      as (n & Hn & Hs).
    exists n. split; [done|]. unfold k, start in *. lia. }
  split; [exact Hpre|]. split.
  - destruct Hpre as (n & -> & Hn). intros i Hi.
    apply elem_of_seqZ in Hi. unfold start in *. lia.
  - intros Hok.
    destruct (gen_loop_run fuel env k k start (storage_in env) tbl)
      as (evs' & store' & tbl' & -> & Hs & _); [lia| |].
    { intros j Hj. apply Hok. unfold k, start in *. lia. }
    unfold add_log. cbn [log].
    rewrite generated_seeds_app, Hs, Nat.sub_diag. cbn [gen_loop].
    rewrite report_seeds, app_nil_r. f_equal. unfold k, start. lia.
Qed.

(** C7, as the code has it.  When the scan ends without corruption,
    the games of the seeds from [startIndex] to [i] are returned, and the
    sync succeeds for the seeds before [i] and fails for [i], the failure
    is logged and [main] returns at once: the seeds after [i] are not
    generated, the result phase does not run, and the result file is not
    opened. *)
Theorem sync_failure_ends_run (noSearches : Z) (fuel : nat) (env : Env)
    (start : Z) (tbl : gmap Z (option GameT)) (evs : list LogEvent)
    (i : Z) :
  scan_loop noSearches (Scanner_err (storage_in env))
            (Scanner_tokens (storage_in env)) 0 gamesOfLength0 =
    ScanDone start tbl evs ->
  start <= i < noSearches ->
  (forall j, start <= j <= i ->
     exists g, generateRandomGame fuel j = Some (GenReturn (Some g) None)) ->
  (forall j, start <= j < i -> sync_ok env j = true) ->
  sync_ok env i = false ->
  let r := main_with noSearches fuel env in
  exit r = ExitSyncReturn /\
  last (log r) = Some LogSyncError /\
  generated_seeds (log r) = seqZ start (i - start + 1) /\
  (LogWritingResults ∉ log r) /\
  result_out r = result_in env.
Proof.
  intros Hscan Hi Hgen Hsync Hfail. cbv zeta. unfold main_with.
  rewrite Hscan.
  destruct (scan_done_seeds _ _ _ _ _ _ _ _ Hscan) as (Hevs & _ & Hnw).
  set (k := Z.to_nat (noSearches - start)).
  set (n := Z.to_nat (i - start)).
  destruct (gen_loop_run fuel env n k start (storage_in env) tbl)
    as (evs1 & store1 & tbl1 & -> & Hs1 & _ & Hnw1); [unfold k, n; lia| |].
  { intros j Hj. destruct (Hgen j) as [g Hg]; [unfold n in *; lia|].
    exists g. split; [done|]. apply Hsync. unfold n in *. lia. }
  replace (start + Z.of_nat n) with i by (unfold n; lia).
  destruct (k - n)%nat as [|k'] eqn:Hk; [unfold k, n in *; lia|].
  destruct (Hgen i) as [g Hg]; [lia|].
  destruct (generated_played rlaws elaws _ _ _ _ Hg) as (Hpl & _).
  destruct (played_getSANMoves g Hpl) as [sanMoves Hsan].
  cbn [gen_loop]. rewrite Hg. unfold storeGame. rewrite Hsan, Hfail.
  unfold add_log. cbn [exit log result_out].
  split; [done|]. split.
  { rewrite !app_assoc.
    change [LogGenerating i;
            LogGameStatus (slice_len (Positions g) - 1) (Status g);
            LogSyncError]
      with ([LogGenerating i;
             LogGameStatus (slice_len (Positions g) - 1) (Status g)]
            ++ [LogSyncError]).
    rewrite app_assoc. apply last_snoc. }
  split.
  { rewrite !generated_seeds_app, Hevs, Hs1. simpl.
    replace (i - start + 1) with (Z.of_nat n + 1) by (unfold n; lia).
    rewrite seqZ_app by lia.
    f_equal. replace (start + Z.of_nat n) with i by (unfold n; lia).
    done. }
  split; [|done]. log_solver.
Qed.

End Main.

(** ** The move-log store *)

Section Store.
Context {E : RulesEngine} {R : RandSource} {rt : GoRuntime}.
Context (elaws : EngineLaws E) (rlaws : RuntimeLaws rt).
Hypothesis words : SAN_words E.

Abbreviation GameT := (Game Position).

Lemma store_line_text (g : GameT) sanMoves :
  store_line g sanMoves =
    line_text (slice_len (Positions g) - 1) sanMoves +:+
    String nl EmptyString.
Proof. unfold store_line, line_text. by rewrite !append_assoc. Qed.

Lemma san_from_spec prev ps :
  Forall (fun p => LastMove p <> Null) ps ->
  List.length (san_from prev ps) = List.length ps /\
  Forall token_ok (san_from prev ps).
Proof.
  revert prev. induction ps as [|p ps IH]; intros prev Hall; [done|].
  apply Forall_cons in Hall as [Hp Hall]. simpl.
  rewrite decide_False by done. simpl.
  destruct (IH p Hall) as [-> Htok].
  split; [done|]. constructor; [by apply words|done].
Qed.

Lemma played_sanMoves (g : GameT) :
  played g ->
  exists sanMoves,
    getSANMoves g = Some sanMoves /\
    Z.of_nat (List.length sanMoves) = slice_len (Positions g) - 1 /\
    Forall token_ok sanMoves.
Proof.
  intros (p0 & ps & Hps & H0 & Hall). unfold getSANMoves, slice_len.
  rewrite Hps, decide_True by done.
  destruct (san_from_spec p0 ps Hall) as [Hlen Htok].
  eexists. split; [done|]. split; [|done]. rewrite Hlen. simpl. lia.
Qed.

Lemma digit_not sep : digit_val sep = None -> forall k, 0 <= k ->
  sep ∉ chars (Sprint_int k).
Proof.
  intros Hsep k Hk Hin. apply chars_Sprint_int in Hin; [|done].
  destruct Hin as [d Hd]. congruence.
Qed.

Lemma line_text_chars sep k sanMoves :
  sep <> sp -> digit_val sep = None -> 0 <= k ->
  Forall (fun w => sep ∉ chars w) sanMoves ->
  sep ∉ chars (line_text k sanMoves).
Proof.
  intros Hsp Hdig Hk Hall. unfold line_text.
  rewrite !chars_append, !elem_of_app. intros [Hin|[Hin|Hin]].
  - by apply (digit_not sep Hdig k Hk).
  - simpl in Hin. apply list_elem_of_singleton in Hin. done.
  - apply chars_Join in Hin as [Hin|(w & Hw & Hin)].
    + simpl in Hin. apply list_elem_of_singleton in Hin. done.
    + rewrite Forall_forall in Hall. by apply (Hall w Hw).
Qed.

Lemma token_ok_chars sanMoves :
  Forall token_ok sanMoves ->
  Forall (fun w => w <> EmptyString) sanMoves /\
  Forall (fun w => sp ∉ chars w) sanMoves /\
  Forall (fun w => nl ∉ chars w) sanMoves /\
  Forall (fun w => cr ∉ chars w) sanMoves.
Proof.
  intros Hall. repeat split; eapply Forall_impl; try exact Hall;
    intros w [Hne Hw]; simpl; try done;
    rewrite Forall_forall in Hw; intros Hin; by destruct (Hw _ Hin) as (?&?&?).
Qed.

(** The scan loop reads the text of a line of at least one move back
    into its length and its moves. *)
Lemma load_line_text startIndex sanMoves :
  sanMoves <> [] -> Forall token_ok sanMoves ->
  Z.of_nat (List.length sanMoves) <= maxInt ->
  let k := Z.of_nat (List.length sanMoves) in
  Split (line_text k sanMoves) sp = Sprint_int k :: sanMoves /\
  load_line startIndex (line_text k sanMoves) =
    inr (MkGame {[ "#" := Sprint_int startIndex;
                   "sanMoves" := Join sanMoves " " ]}
                (make_empty (k + 1))).
Proof.
  intros Hne Htok Hmax k.
  destruct (token_ok_chars _ Htok) as (_ & Hsp & _).
  assert (Hsplit : Split (line_text k sanMoves) sp = Sprint_int k :: sanMoves).
  { unfold line_text.
    change (" " +:+ Join sanMoves " ") with (String sp (Join sanMoves " ")).
    rewrite Split_append_sep, Split_Join by done.
    rewrite Split_no_sep; [done|]. apply digit_not; [done|]. unfold k. lia. }
  split; [done|]. unfold load_line. rewrite Hsplit. simpl hd. simpl tl.
  rewrite Atoi_Sprint_int by (unfold k; lia).
  by rewrite decide_True.
Qed.

(** C4, as the code has it.  With an engine that writes each move as
    one word, a game that [generateRandomGame] returned has at least one
    half-move.  Appended by [storeGame] to a store of
    whole lines that the scanner reads to its end, with a line that fits
    the scanner's buffer, it is one more token of the scan, at the
    position after the lines before it; the token is not corrupt, and
    the scan loop builds from it a stub whose length is the half-move
    count of the game and whose moves are its rendered moves. *)
Theorem store_round_trip (fuel : nat) (seed : Z) (g : GameT)
    (err : option EngineError) (store : string)
    (tbl : gmap Z (option GameT)) :
  generateRandomGame fuel seed = Some (GenReturn (Some g) err) ->
  complete_lines store ->
  Scanner_err store = false ->
  (forall sanMoves, getSANMoves g = Some sanMoves ->
     len (store_line g sanMoves) <= MaxScanTokenSize) ->
  1 <= slice_len (Positions g) - 1 /\
  exists sanMoves store' tbl' text,
    getSANMoves g = Some sanMoves /\
    storeGame store tbl g = Some (store', tbl') /\
    complete_lines store' /\ Scanner_err store' = false /\
    Scanner_tokens store' = Scanner_tokens store ++ [text] /\
    ~ corrupt_line text /\
    tl (Split text sp) = sanMoves /\
    forall startIndex, exists stub,
      load_line startIndex text = inr stub /\
      getGameLength stub = slice_len (Positions g) - 1 /\
      tag stub "sanMoves" = Join sanMoves " " /\
      tag stub "#" = Sprint_int startIndex.
Proof.
  intros Hgen Hstore Herr Hfit.
  destruct (generated_played rlaws elaws _ _ _ _ Hgen) as (Hpl & _ & Hlen).
  split; [lia|].
  destruct (played_sanMoves g Hpl) as (sanMoves & Hsan & Hk & Htok).
  specialize (Hfit sanMoves Hsan).
  rewrite store_line_text, len_append, len_cons in Hfit.
  change (len EmptyString) with 0 in Hfit. rewrite <- Hk in Hfit.
  set (k := Z.of_nat (List.length sanMoves)) in *.
  destruct (token_ok_chars _ Htok) as (Hne & Hsp & Hnl & Hcr).
  assert (Hnil : sanMoves <> []) by (intros ->; simpl in k; lia).
  assert (Hmax : k <= maxInt).
  { pose proof (len_Join sanMoves " " Hne).
    unfold line_text in Hfit. rewrite !len_append in Hfit.
    pose proof (len_nonneg (Sprint_int k)).
    change (len " ") with 1 in Hfit.
    unfold MaxScanTokenSize, maxInt in *. fold k in H. lia. }
  destruct (load_line_text 0 sanMoves Hnil Htok Hmax) as [Hsplit _].
  fold k in Hsplit.
  destruct (Scanner_append store (line_text k sanMoves))
    as (Htokens & Herr' & Hcomplete); try done.
  { apply line_text_chars; try done. unfold k. lia. }
  { apply line_text_chars; try done. unfold k. lia. }
  { unfold fits. apply Z.ltb_lt. lia. }
  exists sanMoves, (store +:+ store_line g sanMoves),
         (addToGamesOfLength g tbl), (line_text k sanMoves).
  split; [done|]. split; [unfold storeGame; by rewrite Hsan|].
  rewrite store_line_text, <- Hk. fold k.
  split; [done|]. split; [done|]. split; [done|].
  assert (Hload : forall startIndex, exists stub,
            load_line startIndex (line_text k sanMoves) = inr stub /\
            getGameLength stub = k /\
            tag stub "sanMoves" = Join sanMoves " " /\
            tag stub "#" = Sprint_int startIndex).
  { intros startIndex.
    destruct (load_line_text startIndex sanMoves Hnil Htok Hmax) as [_ Hl].
    fold k in Hl. eexists. split; [exact Hl|].
    split; [unfold getGameLength; simpl; lia|].
    unfold tag. simpl. split; by simplify_map_eq. }
  split.
  { intros Hc. apply (load_line_corrupt 0) in Hc as (ev & Hev & _).
    destruct (Hload 0) as (stub & Hl & _). congruence. }
  split; [by rewrite Hsplit|]. exact Hload.
Qed.

End Store.

(** ** Runs of [main] on the small engine *)

(** The second of two lines is corrupt. *)
Lemma corruption_is_fatal_witness :
  let env := MkEnv Nim.corrupt_store None (fun _ => true) in
  Scanner_tokens (storage_in env) !! 1%nat = Some "2 b2"%string /\
  1 < 3 /\ corrupt_line "2 b2" /\
  exit (Nim.run 3 env) = ExitFatal /\
  generated_seeds (log (Nim.run 3 env)) = [] /\
  storage_out (Nim.run 3 env) = storage_in env.
Proof.
  intros env.
  assert (H1 : Scanner_tokens (storage_in env) !! 1%nat = Some "2 b2"%string)
    by reflexivity.
  assert (H2 : Z.of_nat 1 < 3) by lia.
  assert (H3 : corrupt_line "2 b2") by (vm_compute; discriminate).
  split; [exact H1|]. split; [lia|]. split; [exact H3|].
  destruct (corruption_is_fatal (E := Nim.engine 5 false) (R := Nim.lcg)
              (rt := Nim.runtime) 3 20 env 1 "2 b2" H1 H2 H3)
    as (He & _ & Hs & Hst & _).
  split; [exact He|]. split; [exact Hs|exact Hst].
Defined.

(** Two intact lines and a budget of four: the seeds 2 and 3. *)
Lemma resumption_from_scanned_lines_witness :
  let env := MkEnv Nim.two_lines None (fun _ => true) in
  EngineLaws (Nim.engine 5 false) /\ RuntimeLaws Nim.runtime /\
  0 < 4 /\ Scanner_err (storage_in env) = false /\
  Forall (fun l => ~ corrupt_line l) (Scanner_tokens (storage_in env)) /\
  generated_seeds (log (Nim.run 4 env)) = [2; 3].
Proof.
  intros env.
  assert (H1 : 0 < 4) by lia.
  assert (H2 : Scanner_err (storage_in env) = false) by reflexivity.
  assert (H3 : Forall (fun l => ~ corrupt_line l)
                 (Scanner_tokens (storage_in env))).
  { repeat constructor; vm_compute; intros H; by apply H. }
  split; [exact (nim_engine_laws 5)|]. split; [exact nim_runtime_laws|].
  split; [exact H1|]. split; [exact H2|]. split; [exact H3|].
  destruct (resumption_from_scanned_lines (E := Nim.engine 5 false)
              (R := Nim.lcg) (nim_engine_laws 5) nim_runtime_laws
              4 20 env H1 H2 H3) as (_ & _ & Hall).
  assert (Hstart : Z.min (Z.of_nat (List.length (raw_lines (storage_in env))))
                         4 = 2) by reflexivity.
  rewrite Hstart in Hall. unfold Nim.run. rewrite Hall; [reflexivity|].
  intros i Hi.
  assert (i = 2 \/ i = 3) as [->| ->] by lia;
    eexists; split; vm_compute; reflexivity.
Defined.

(** The sync succeeds for seed 0 and fails for seed 1, of three. *)
Lemma sync_failure_ends_run_witness :
  let env := MkEnv EmptyString (Some "old"%string) (fun j => j <? 1) in
  EngineLaws (Nim.engine 5 false) /\ RuntimeLaws Nim.runtime /\
  0 <= 1 < 3 /\ sync_ok env 1 = false /\
  exit (Nim.run 3 env) = ExitSyncReturn /\
  generated_seeds (log (Nim.run 3 env)) = [0; 1] /\
  result_out (Nim.run 3 env) = Some "old"%string.
Proof.
  intros env.
  split; [exact (nim_engine_laws 5)|]. split; [exact nim_runtime_laws|].
  split; [lia|]. split; [reflexivity|].
  destruct (sync_failure_ends_run (E := Nim.engine 5 false) (R := Nim.lcg)
              (nim_engine_laws 5) nim_runtime_laws
              3 20 env 0 gamesOfLength0 [] 1)
    as (He & _ & Hs & _ & Hr).
  - reflexivity.
  - lia.
  - intros j Hj. assert (j = 0 \/ j = 1) as [->| ->] by lia;
      eexists; vm_compute; reflexivity.
  - intros j Hj. assert (j = 0) as -> by lia. reflexivity.
  - reflexivity.
  - split; [exact He|]. split; [exact Hs|exact Hr].
Defined.

(** C7 as stated fails: the sync fails after the game of seed 0, of a
    budget of three; the failure is logged, but the seeds 1 and 2 are not
    generated and the result phase does not start. *)
Lemma sync_failure_counterexample :
  let env := MkEnv EmptyString None (fun _ => false) in
  sync_ok env 0 = false /\
  LogSyncError ∈ log (Nim.run 3 env) /\
  ~ (generated_seeds (log (Nim.run 3 env)) = [0; 1; 2] /\
     LogWritingResults ∈ log (Nim.run 3 env)).
Proof.
  intros env. split; [reflexivity|]. split.
  - assert (exists a b, log (Nim.run 3 env) = [a; b; LogSyncError])
      as (a & b & ->) by (do 2 eexists; vm_compute; reflexivity).
    rewrite !elem_of_cons. auto.
  - intros [Hseeds _]. vm_compute in Hseeds. discriminate Hseeds.
Qed.

(** An engine that refuses every move: the replay of the stub fails. *)
Lemma replay_error_dereferences_nil_witness :
  let tbl := <[10 := Some (Nim.stub 0 3)]>
               (gamesOfLength0 (E := Nim.engine 5 true)) in
  let w := MkWriter EmptyString EmptyString in
  tbl !! 10 = Some (Some (Nim.stub 0 3)) /\
  slice_len (Positions (Nim.stub 0 3)) = 0 /\
  Atoi (tag (Nim.stub 0 3) "#") = Some 0 /\
  generateRandomGame (E := Nim.engine 5 true) (R := Nim.lcg)
                     (rt := Nim.runtime) 20 0 =
    Some (GenReturn (E := Nim.engine 5 true) None (Some tt)) /\
  report_loop (E := Nim.engine 5 true) (R := Nim.lcg) (rt := Nim.runtime)
              20 tbl [10; 25] w =
    ([LogReplayError (E := Nim.engine 5 true) tt], ExitPanic, w).
Proof.
  intros tbl w.
  assert (H1 : tbl !! 10 = Some (Some (Nim.stub 0 3))) by reflexivity.
  assert (H2 : slice_len (Positions (Nim.stub 0 3)) = 0) by reflexivity.
  assert (H3 : Atoi (tag (Nim.stub 0 3) "#") = Some 0) by reflexivity.
  assert (H4 : generateRandomGame (E := Nim.engine 5 true) (R := Nim.lcg)
                 (rt := Nim.runtime) 20 0 =
               Some (GenReturn (E := Nim.engine 5 true) None (Some tt)))
    by reflexivity.
  split; [exact H1|]. split; [exact H2|]. split; [exact H3|].
  split; [exact H4|].
  apply (replay_error_dereferences_nil (E := Nim.engine 5 true)
           (R := Nim.lcg) (rt := Nim.runtime) 20 tbl w 10 [25]
           (Nim.stub 0 3) 0 None tt H1 H2 H3 H4).
Defined.

(** ** The store on the small engine *)

(** The game of seed 2 appended to the lines of the seeds 0 and 1. *)
Lemma store_round_trip_witness :
  let g := Nim.game2 in
  let store := Nim.two_lines in
  let tbl := gamesOfLength0 (E := Nim.engine 5 false) in
  EngineLaws (Nim.engine 5 false) /\ RuntimeLaws Nim.runtime /\
  SAN_words (Nim.engine 5 false) /\
  generateRandomGame (E := Nim.engine 5 false) (R := Nim.lcg)
                     (rt := Nim.runtime) 20 2 =
    Some (GenReturn (E := Nim.engine 5 false) (Some g) None) /\
  complete_lines store /\ Scanner_err store = false /\
  (forall sanMoves,
     getSANMoves (E := Nim.engine 5 false) g = Some sanMoves ->
     len (store_line (E := Nim.engine 5 false) g sanMoves)
       <= MaxScanTokenSize) /\
  exists sanMoves store' tbl' text,
    getSANMoves (E := Nim.engine 5 false) g = Some sanMoves /\
    storeGame (rt := Nim.runtime) store tbl g = Some (store', tbl') /\
    complete_lines store' /\ Scanner_err store' = false /\
    Scanner_tokens store' = Scanner_tokens store ++ [text] /\
    ~ corrupt_line text /\
    tl (Split text sp) = sanMoves /\
    forall startIndex, exists stub,
      load_line (E := Nim.engine 5 false) startIndex text = inr stub /\
      getGameLength stub = slice_len (Positions g) - 1 /\
      tag stub "sanMoves" = Join sanMoves " " /\
      tag stub "#" = Sprint_int startIndex.
Proof.
  intros g store tbl.
  assert (H1 : generateRandomGame (E := Nim.engine 5 false) (R := Nim.lcg)
                 (rt := Nim.runtime) 20 2 =
               Some (GenReturn (E := Nim.engine 5 false) (Some g) None))
    by reflexivity.
  assert (H2 : complete_lines store).
  { right. eexists. unfold store, Nim.two_lines, Nim.line.
    by rewrite <- append_assoc. }
  assert (H3 : Scanner_err store = false) by reflexivity.
  assert (H4 : forall sanMoves,
            getSANMoves (E := Nim.engine 5 false) g = Some sanMoves ->
            len (store_line (E := Nim.engine 5 false) g sanMoves)
              <= MaxScanTokenSize).
  { intros sanMoves H. vm_compute in H. injection H as <-.
    vm_compute. discriminate. }
  split; [exact (nim_engine_laws 5)|]. split; [exact nim_runtime_laws|].
  split; [exact (nim_SAN_words 5)|].
  split; [exact H1|]. split; [exact H2|]. split; [exact H3|].
  split; [exact H4|].
  apply (store_round_trip (E := Nim.engine 5 false) (R := Nim.lcg)
           (nim_engine_laws 5) nim_runtime_laws (nim_SAN_words 5)
           20 2 g None store tbl H1 H2 H3 H4).
Defined.

(** C4 as stated fails for a record without half-moves: [storeGame]
    writes for the new game the line [0] followed by a space, the scan
    counts one move token on it, and the next run stops on it as
    corrupt. *)
Lemma store_round_trip_counterexample :
  let g := New (RulesEngine := Nim.engine 5 false) in
  let tbl := gamesOfLength0 (E := Nim.engine 5 false) in
  slice_len (Positions g) - 1 = 0 /\
  exists store' tbl',
    storeGame (rt := Nim.runtime) EmptyString tbl g = Some (store', tbl') /\
    Scanner_tokens store' = ["0 "%string] /\
    corrupt_line "0 " /\
    load_line (E := Nim.engine 5 false) 0 "0 " = inl (LogValidateError 0 0 1) /\
    exit (Nim.run 3 (MkEnv store' None (fun _ => true))) = ExitFatal.
Proof.
  intros g tbl. split; [reflexivity|].
  eexists _, _. split; [reflexivity|].
  split; [reflexivity|]. split; [vm_compute; discriminate|].
  split; reflexivity.
Qed.

(** ** The result file on the small engine *)

(** C9 fails on the code.  A run of three games from an empty store
    comes to its end and reports a game for each of the seven target
    lengths, yet the result file of an earlier run is unchanged: the file
    is opened without truncation, and the blocks are still in the buffer of
    the writer, which is never flushed. *)
Theorem result_file_keeps_old_content :
  let env := MkEnv EmptyString (Some "old result"%string) (fun _ => true) in
  let r := Nim.run 3 env in
  exit r = ExitEnd /\
  reported_targets (log r) = targets /\
  result_out r = Some "old result"%string /\
  exists evs w,
    report_loop (E := Nim.engine 5 false) (R := Nim.lcg) (rt := Nim.runtime)
                20 (games r) (sorted_lengths (rt := Nim.runtime) (games r))
                (MkWriter EmptyString EmptyString) = (evs, ExitEnd, w) /\
    flushed w = EmptyString /\ len (buffered w) = 606.
Proof.
  intros env r. split; [reflexivity|]. split; [|split; [reflexivity|]].
  - vm_compute. reflexivity.
  - eexists _, _. split; [vm_compute; reflexivity|]. split; reflexivity.
Qed.

(** * Further properties *)

(** ** The selector *)

Section SelectorMore.
Context {E : RulesEngine}.

Abbreviation GameT := (Game Position).

Lemma wrap_int_high z :
  maxInt < z <= 2 ^ 64 - 1 -> wrap_int z = z - 2 ^ 64.
Proof.
  unfold wrap_int, maxInt. intros Hz.
  replace (z + 2 ^ 63) with (z + 2 ^ 63 - 2 ^ 64 + 1 * 2 ^ 64) by lia.
  rewrite Z.mod_add by lia. rewrite Z.mod_small; lia.
Qed.

(** X1. [dist] is symmetric.  On two [int]s it is their absolute
    difference when that fits an [int]; when it does not, the subtraction
    wraps and [dist] is the absolute difference less [2^64], a negative
    number. *)
Theorem dist_symmetric_and_overflow (a b : Z) :
  minInt <= a <= maxInt -> minInt <= b <= maxInt ->
  dist a b = dist b a /\
  (Z.abs (a - b) <= maxInt -> dist a b = Z.abs (a - b)) /\
  (maxInt < Z.abs (a - b) ->
   dist a b = Z.abs (a - b) - 2 ^ 64 /\ dist a b < 0).
Proof.
  intros Ha Hb. unfold minInt, maxInt in Ha, Hb. split; [|split].
  - unfold dist. destruct (a >? b) eqn:Hab, (b >? a) eqn:Hba; try done.
    + lia.
    + assert (a = b) as -> by lia. done.
  - intros Hfit. unfold dist.
    destruct (a >? b) eqn:Hab; rewrite wrap_int_small;
      unfold minInt, maxInt in *; lia.
  - intros Hbig.
    assert (Hd : dist a b = Z.abs (a - b) - 2 ^ 64).
    { unfold dist. destruct (a >? b) eqn:Hab; rewrite wrap_int_high;
        unfold maxInt in *; lia. }
    split; [done|]. rewrite Hd. lia.
Qed.

Context {rt : GoRuntime}.
Hypothesis laws : RuntimeLaws rt.

(** X2. [addToGamesOfLength] keeps the keys of the table, and leaves no
    key it has without a game: the entry afterwards is the given record or
    the game that was there, and its distance to the key, as [dist]
    computes it, is not larger than before. *)
Theorem addToGamesOfLength_fills_entries (g : GameT)
    (tbl : gmap Z (option GameT)) (l : Z) :
  (is_Some (addToGamesOfLength g tbl !! l) <-> is_Some (tbl !! l)) /\
  (forall lg, tbl !! l = Some lg ->
     exists g', addToGamesOfLength g tbl !! l = Some (Some g') /\
                (g' = g \/ lg = Some g') /\
                (forall old, lg = Some old ->
                   dist l (getGameLength g') <= dist l (getGameLength old))).
Proof.
  rewrite (addToGamesOfLength_lookup laws). split.
  - by rewrite fmap_is_Some.
  - intros lg ->. simpl. destruct lg as [old|]; simpl.
    + destruct (_ <? _) eqn:Hlt.
      * exists g. apply Z.ltb_lt in Hlt. repeat split; auto.
        intros ? [= <-]. lia.
      * exists old. repeat split; auto. intros ? [= <-]. lia.
    + exists g. repeat split; auto. done.
Qed.

(** X4. Giving [addToGamesOfLength] the same record a second time
    changes nothing. *)
Theorem addToGamesOfLength_idempotent (g : GameT)
    (tbl : gmap Z (option GameT)) :
  addToGamesOfLength g (addToGamesOfLength g tbl) = addToGamesOfLength g tbl.
Proof.
  apply map_eq. intros l. rewrite !(addToGamesOfLength_lookup laws).
  destruct (tbl !! l) as [[old|]|]; simpl; [| |done].
  - destruct (_ <? _) eqn:Hlt; simpl; [|by rewrite Hlt].
    by rewrite Z.ltb_irrefl.
  - by rewrite Z.ltb_irrefl.
Qed.

(** X5. The selection looks at the lengths of the records only: two
    sequences of records with the same lengths, such as the stubs of the
    stored lines and the games they were written from, leave for every
    target length the records at the same place of the two sequences. *)
Theorem selection_depends_on_lengths (T : Z) (rs rs' : list GameT) :
  T ∈ targets ->
  getGameLength <$> rs = getGameLength <$> rs' ->
  exists i : nat,
    process rs gamesOfLength0 !! T = Some (rs !! i) /\
    process rs' gamesOfLength0 !! T = Some (rs' !! i) /\
    (rs <> [] -> (i < List.length rs)%nat).
Proof.
  intros HT. revert rs'.
  induction rs as [|g rs IH] using rev_ind; intros rs' Hlen.
  - destruct rs'; [|done]. exists O. unfold process. simpl.
    rewrite (gamesOfLength0_lookup T HT). done.
  - destruct rs' as [|g' rs' _] using rev_ind.
    { rewrite fmap_app in Hlen. by destruct rs. }
    rewrite !fmap_app in Hlen. apply app_inj_tail in Hlen as [Hlen Hg].
    destruct (IH rs' Hlen) as (i & H1 & H2 & Hi).
    rewrite !process_snoc, !(addToGamesOfLength_lookup laws), H1, H2. simpl.
    assert (Hn : List.length rs = List.length rs')
      by (by rewrite <- (length_fmap getGameLength rs), Hlen, length_fmap).
    destruct (decide (rs = [])) as [->|Hne].
    + destruct rs'; [|done]. exists O. simpl. repeat split. intros _. simpl. lia.
    + specialize (Hi Hne).
      destruct (lookup_lt_is_Some_2 rs i Hi) as [b Hb].
      destruct (lookup_lt_is_Some_2 rs' i) as [b' Hb']; [lia|].
      assert (Hbb : getGameLength b = getGameLength b').
      { assert ((getGameLength <$> rs) !! i = (getGameLength <$> rs') !! i)
          as Heq by (by rewrite Hlen).
        rewrite !list_lookup_fmap, Hb, Hb' in Heq. by injection Heq. }
      rewrite Hb, Hb'. simpl. rewrite Hg, Hbb.
      destruct (_ <? _).
      * exists (List.length rs). rewrite list_lookup_middle by done.
        rewrite list_lookup_middle by done.
        repeat split. intros _. rewrite length_app. simpl. lia.
      * exists i. rewrite !lookup_app_l by lia. rewrite Hb, Hb'.
        repeat split. intros _. rewrite length_app. lia.
Qed.

End SelectorMore.

(** X3. The table [addToGamesOfLength] leaves, and so the table after
    any sequence of records, does not depend on the order in which the
    [range] visits the map. *)
Theorem selection_independent_of_range_order {E : RulesEngine}
    (rt1 rt2 : GoRuntime) (rs : list (Game Position))
    (tbl : gmap Z (option (Game Position))) :
  RuntimeLaws rt1 -> RuntimeLaws rt2 ->
  process (rt := rt1) rs tbl = process (rt := rt2) rs tbl.
Proof.
  intros L1 L2.
  assert (Hadd : forall g (t : gmap Z (option (Game Position))),
            addToGamesOfLength (rt := rt1) g t =
            addToGamesOfLength (rt := rt2) g t).
  { intros g t. apply map_eq. intros l.
    by rewrite (addToGamesOfLength_lookup L1), (addToGamesOfLength_lookup L2). }
  revert tbl. induction rs as [|g rs IH]; intros tbl; [done|].
  unfold process in *. simpl. rewrite Hadd. apply IH.
Qed.

(** The largest [int] and [-1]: their difference does not fit. *)
Lemma dist_symmetric_and_overflow_witness :
  minInt <= maxInt <= maxInt /\ minInt <= -1 <= maxInt /\
  dist maxInt (-1) = dist (-1) maxInt /\
  (Z.abs (maxInt - -1) <= maxInt -> dist maxInt (-1) = Z.abs (maxInt - -1)) /\
  (maxInt < Z.abs (maxInt - -1) ->
   dist maxInt (-1) = Z.abs (maxInt - -1) - 2 ^ 64 /\ dist maxInt (-1) < 0).
Proof.
  assert (H1 : minInt <= maxInt <= maxInt) by (unfold minInt, maxInt; lia).
  assert (H2 : minInt <= -1 <= maxInt) by (unfold minInt, maxInt; lia).
  split; [exact H1|]. split; [exact H2|].
  exact (dist_symmetric_and_overflow maxInt (-1) H1 H2).
Defined.

(** A first record for the key 10 of the table of the program. *)
Lemma addToGamesOfLength_fills_entries_witness :
  RuntimeLaws Nim.runtime /\
  (is_Some (addToGamesOfLength (E := Nim.engine 5 false) (rt := Nim.runtime)
              (Nim.stub 0 30) gamesOfLength0 !! 10) <->
   is_Some (gamesOfLength0 (E := Nim.engine 5 false) !! 10)) /\
  (forall lg, gamesOfLength0 (E := Nim.engine 5 false) !! 10 = Some lg ->
     exists g', addToGamesOfLength (E := Nim.engine 5 false)
                  (rt := Nim.runtime) (Nim.stub 0 30)
                  gamesOfLength0 !! 10 = Some (Some g') /\
                (g' = Nim.stub 0 30 \/ lg = Some g') /\
                (forall old, lg = Some old ->
                   dist 10 (getGameLength (E := Nim.engine 5 false) g') <=
                   dist 10 (getGameLength (E := Nim.engine 5 false) old))).
Proof.
  split; [exact nim_runtime_laws|].
  exact (addToGamesOfLength_fills_entries (E := Nim.engine 5 false)
           nim_runtime_laws (Nim.stub 0 30) gamesOfLength0 10).
Defined.

(** The three stubs, the map visited in either order. *)
Lemma selection_independent_of_range_order_witness :
  RuntimeLaws Nim.runtime /\ RuntimeLaws Nim.runtime_rev /\
  process (E := Nim.engine 5 false) (rt := Nim.runtime)
          Nim.three_stubs gamesOfLength0 =
  process (E := Nim.engine 5 false) (rt := Nim.runtime_rev)
          Nim.three_stubs gamesOfLength0.
Proof.
  split; [exact nim_runtime_laws|]. split; [exact nim_runtime_rev_laws|].
  exact (selection_independent_of_range_order (E := Nim.engine 5 false)
           Nim.runtime Nim.runtime_rev Nim.three_stubs gamesOfLength0
           nim_runtime_laws nim_runtime_rev_laws).
Defined.

(** The same stub twice. *)
Lemma addToGamesOfLength_idempotent_witness :
  RuntimeLaws Nim.runtime /\
  addToGamesOfLength (E := Nim.engine 5 false) (rt := Nim.runtime)
    (Nim.stub 0 30)
    (addToGamesOfLength (E := Nim.engine 5 false) (rt := Nim.runtime)
       (Nim.stub 0 30) gamesOfLength0) =
  addToGamesOfLength (E := Nim.engine 5 false) (rt := Nim.runtime)
    (Nim.stub 0 30) gamesOfLength0.
Proof.
  split; [exact nim_runtime_laws|].
  exact (addToGamesOfLength_idempotent (E := Nim.engine 5 false)
           nim_runtime_laws (Nim.stub 0 30) gamesOfLength0).
Defined.

(** Stubs and records with positions of 30, 12 and 8 half-moves. *)
Lemma selection_depends_on_lengths_witness :
  RuntimeLaws Nim.runtime /\ 10 ∈ targets /\
  getGameLength (E := Nim.engine 5 false) <$> Nim.three_stubs =
    getGameLength (E := Nim.engine 5 false) <$> three_games /\
  exists i : nat,
    process (E := Nim.engine 5 false) (rt := Nim.runtime)
            Nim.three_stubs gamesOfLength0 !! 10 = Some (Nim.three_stubs !! i) /\
    process (E := Nim.engine 5 false) (rt := Nim.runtime)
            three_games gamesOfLength0 !! 10 = Some (three_games !! i) /\
    (Nim.three_stubs <> [] -> (i < List.length Nim.three_stubs)%nat).
Proof.
  assert (H10 : 10 ∈ targets) by (unfold targets; set_solver).
  assert (Hlen : getGameLength (E := Nim.engine 5 false) <$> Nim.three_stubs =
                 getGameLength (E := Nim.engine 5 false) <$> three_games)
    by reflexivity.
  split; [exact nim_runtime_laws|]. split; [exact H10|]. split; [exact Hlen|].
  exact (selection_depends_on_lengths (E := Nim.engine 5 false)
           nim_runtime_laws 10 Nim.three_stubs three_games H10 Hlen).
Defined.

(** ** The generator and the moves of a game *)

Section GeneratorMore.
Context {E : RulesEngine} {R : RandSource} {rt : GoRuntime}.

Abbreviation GameT := (Game Position).

Lemma generate_loop_game_or_error fuel : forall (g0 : GameT) gs rnd g err,
  generate_loop fuel g0 gs rnd = Some (GenReturn g err) ->
  (is_Some g /\ err = None) \/ (g = None /\ is_Some err).
Proof.
  induction fuel as [|fuel IH]; intros g0 gs rnd g err; simpl;
    destruct (decide (gs = InProgress)) as [Hgs|Hgs]; try done;
    try (intros [= <- <-]; left; eauto).
  destruct (rand_Intn _ _) as [[k rnd']|]; [|done].
  destruct (index _ k) as [m|]; [|done].
  destruct (MakeMove g0 m) as [[g1 gs1] [e|]]; [|apply IH].
  intros [= <- <-]. right. eauto.
Qed.

(** X6. [generateRandomGame] returns a game or an error, never both and
    never neither. *)
Theorem generateRandomGame_game_or_error (fuel : nat) (seed : Z)
    (g : option GameT) (err : option EngineError) :
  generateRandomGame fuel seed = Some (GenReturn g err) ->
  (is_Some g /\ err = None) \/ (g = None /\ is_Some err).
Proof. apply generate_loop_game_or_error. Qed.

Lemma san_from_lookup ps : forall prev (i : nat) p q,
  Forall (fun x => LastMove x <> Null) ps ->
  (prev :: ps) !! i = Some p -> (prev :: ps) !! S i = Some q ->
  san_from prev ps !! i = Some (SAN p (LastMove q)).
Proof.
  induction ps as [|x ps IH]; intros prev i p q Hall Hp Hq.
  - by destruct i.
  - apply Forall_cons in Hall as [Hx Hall]. simpl.
    rewrite decide_False by done. destruct i as [|i].
    + simpl in Hp, Hq. by simplify_eq.
    + simpl in Hp, Hq. simpl. by apply IH.
Qed.

Lemma san_from_length ps : forall prev,
  Forall (fun x => LastMove x <> Null) ps ->
  List.length (san_from prev ps) = List.length ps.
Proof.
  induction ps as [|x ps IH]; intros prev Hall; [done|].
  apply Forall_cons in Hall as [Hx Hall]. simpl.
  rewrite decide_False by done. simpl. by rewrite IH.
Qed.

Context (elaws : EngineLaws E) (rlaws : RuntimeLaws rt).

(** X7. For a game that [generateRandomGame] returned, [getSANMoves]
    does not panic and gives one move for each position after the first:
    the move that led to the position, written from the position before
    it. *)
Theorem generated_game_has_its_moves (fuel : nat) (seed : Z) (g : GameT)
    (err : option EngineError) :
  generateRandomGame fuel seed = Some (GenReturn (Some g) err) ->
  exists sanMoves,
    getSANMoves g = Some sanMoves /\
    Z.of_nat (List.length sanMoves) = slice_len (Positions g) - 1 /\
    forall (i : nat) p q,
      elems (Positions g) !! i = Some p ->
      elems (Positions g) !! S i = Some q ->
      sanMoves !! i = Some (SAN p (LastMove q)).
Proof.
  intros Hgen.
  destruct (generated_played rlaws elaws _ _ _ _ Hgen)
    as ((p0 & ps & Hps & H0 & Hall) & _).
  unfold getSANMoves, slice_len. rewrite Hps, decide_True by done.
  eexists. split; [done|]. split.
  - rewrite (san_from_length ps p0 Hall). simpl. lia.
  - intros i p q. by apply san_from_lookup.
Qed.

End GeneratorMore.

(** An engine that refuses every move returns the error and no game. *)
Lemma generateRandomGame_game_or_error_witness :
  generateRandomGame (E := Nim.engine 5 true) (R := Nim.lcg)
                     (rt := Nim.runtime) 20 0 =
    Some (GenReturn (E := Nim.engine 5 true) None (Some tt)) /\
  ((is_Some (@None (Game Nim.position)) /\ Some tt = None) \/
   (@None (Game Nim.position) = None /\ is_Some (Some tt))).
Proof.
  assert (H : generateRandomGame (E := Nim.engine 5 true) (R := Nim.lcg)
                (rt := Nim.runtime) 20 0 =
              Some (GenReturn (E := Nim.engine 5 true) None (Some tt)))
    by reflexivity.
  split; [exact H|].
  exact (generateRandomGame_game_or_error (E := Nim.engine 5 true)
           20 0 None (Some tt) H).
Defined.

(** The game of seed 2 on a pile of five. *)
Lemma generated_game_has_its_moves_witness :
  EngineLaws (Nim.engine 5 false) /\ RuntimeLaws Nim.runtime /\
  generateRandomGame (E := Nim.engine 5 false) (R := Nim.lcg)
                     (rt := Nim.runtime) 20 2 =
    Some (GenReturn (E := Nim.engine 5 false) (Some Nim.game2) None) /\
  exists sanMoves,
    getSANMoves (E := Nim.engine 5 false) Nim.game2 = Some sanMoves /\
    Z.of_nat (List.length sanMoves) = slice_len (Positions Nim.game2) - 1 /\
    forall (i : nat) p q,
      elems (Positions Nim.game2) !! i = Some p ->
      elems (Positions Nim.game2) !! S i = Some q ->
      sanMoves !! i = Some (SAN (RulesEngine := Nim.engine 5 false) p
                               (LastMove (RulesEngine := Nim.engine 5 false) q)).
Proof.
  assert (H : generateRandomGame (E := Nim.engine 5 false) (R := Nim.lcg)
                (rt := Nim.runtime) 20 2 =
              Some (GenReturn (E := Nim.engine 5 false) (Some Nim.game2) None))
    by reflexivity.
  split; [exact (nim_engine_laws 5)|]. split; [exact nim_runtime_laws|].
  split; [exact H|].
  exact (generated_game_has_its_moves (E := Nim.engine 5 false) (R := Nim.lcg)
           (nim_engine_laws 5) nim_runtime_laws 20 2 Nim.game2 None H).
Defined.

(** ** The scan of the store *)

Section ScanMore.
Context {E : RulesEngine} {R : RandSource} {rt : GoRuntime}.

Abbreviation GameT := (Game Position).

Lemma length_Split s sep :
  List.length (Split s sep) = S (count_char sep s).
Proof.
  induction s as [|c s IH]; [done|]. simpl.
  destruct (decide (c = sep)); simpl; [by rewrite IH|].
  pose proof (Split_not_nil s sep).
  destruct (Split s sep); [done|]. simpl in *. lia.
Qed.

(** X12. The quick validation of a storage line counts separators: a
    line is accepted exactly when the text before its first space reads,
    by [strconv.Atoi], as the number of spaces of the line, and the stub
    then has that length.  Moves are not looked at, so two spaces in a row
    count as a move with no text. *)
Theorem load_line_counts_spaces (startIndex : Z) (line : string) :
  ((exists stub : GameT, load_line startIndex line = inr stub) <->
   Atoi (hd EmptyString (Split line sp)) =
     Some (Z.of_nat (count_char sp line))) /\
  (forall stub : GameT, load_line startIndex line = inr stub ->
     getGameLength stub = Z.of_nat (count_char sp line)).
Proof.
  assert (Hn : List.length (tl (Split line sp)) = count_char sp line).
  { pose proof (length_Split line sp) as H.
    destruct (Split line sp); simpl in *; lia. }
  unfold load_line. rewrite Hn.
  destruct (Atoi _) as [n|]; [|split; [split; [by intros [? ?]|done]|done]].
  destruct (decide (n = _)) as [->|Hne].
  - split; [split; eauto|]. intros stub [= <-].
    unfold getGameLength. simpl. lia.
  - split; [|done]. split; [by intros [? ?]|]. intros [= ?]. done.
Qed.

(** The table after the scan is the selection among the stubs of the
    lines read. *)
Lemma scan_loop_process noSearches readErr lines :
  forall startIndex (tbl : gmap Z (option GameT)) s t evs,
    scan_loop noSearches readErr lines startIndex tbl = ScanDone s t evs ->
    exists stubs,
      t = process stubs tbl /\
      s = startIndex + Z.of_nat (List.length stubs) /\
      forall (j : nat) stub, stubs !! j = Some stub ->
        exists line, lines !! j = Some line /\
                     load_line (startIndex + Z.of_nat j) line = inr stub.
Proof.
  induction lines as [|l lines IH]; intros startIndex tbl s t evs; simpl.
  - intros [= <- <- <-]. exists []. split; [done|]. split; [simpl; lia|].
    by intros j stub ?.
  - destruct (load_line startIndex l) as [|g] eqn:Hl; [done|].
    assert (Hhead : forall (stubs : list GameT),
              (forall (j : nat) stub, stubs !! j = Some stub ->
                 exists line, lines !! j = Some line /\
                   load_line (startIndex + 1 + Z.of_nat j) line = inr stub) ->
              forall (j : nat) stub, (g :: stubs) !! j = Some stub ->
                exists line, (l :: lines) !! j = Some line /\
                  load_line (startIndex + Z.of_nat j) line = inr stub).
    { intros stubs Hs [|j] stub Hj; simpl in *.
      - simplify_eq. exists l. by rewrite Z.add_0_r.
      - destruct (Hs j stub Hj) as (line & ? & Hload). exists line.
        split; [done|]. rewrite <- Hload. f_equal. lia. }
    destruct (decide _).
    + intros [= <- <- <-]. exists [g]. split; [done|]. split; [simpl; lia|].
      apply Hhead. by intros j stub ?.
    + intros Hs. destruct (IH _ _ _ _ _ Hs) as (stubs & -> & -> & Hstubs).
      exists (g :: stubs). split; [done|]. split; [simpl; lia|].
      by apply Hhead.
Qed.

(** X11. When the scan ends without a corrupt line, the table it leaves
    is the selection among the stubs of the lines it read, first to last:
    [startIndex] counts them, and the stub at each place is the one the
    line at that place of the file gives for that seed. *)
Theorem scan_selects_among_stubs (noSearches : Z) (env : Env) (start : Z)
    (tbl : gmap Z (option GameT)) (evs : list LogEvent) :
  scan_loop noSearches (Scanner_err (storage_in env))
            (Scanner_tokens (storage_in env)) 0 gamesOfLength0 =
    ScanDone start tbl evs ->
  exists stubs,
    tbl = process stubs gamesOfLength0 /\
    start = Z.of_nat (List.length stubs) /\
    forall (j : nat) stub, stubs !! j = Some stub ->
      exists line, Scanner_tokens (storage_in env) !! j = Some line /\
                   load_line (Z.of_nat j) line = inr stub.
Proof.
  intros Hscan.
  destruct (scan_loop_process _ _ _ _ _ _ _ _ Hscan) as (stubs & ? & ? & Hs).
  exists stubs. split; [done|]. split; [lia|]. exact Hs.
Qed.


Lemma report_store fuel env store (tbl : gmap Z (option GameT)) :
  storage_out (report fuel env store tbl) = store /\
  LogWritingResults ∈ log (report fuel env store tbl) /\
  (LogReadError ∉ log (report fuel env store tbl)).
Proof.
  unfold report.
  assert (Hno : forall ls w,
            LogReadError ∉ (report_loop fuel tbl ls w).1.1).
  { induction ls as [|l ls IH]; intros w; simpl; [apply not_elem_of_nil|].
    assert (H1 : LogReadError ∉ (report_one fuel tbl w l).1).
    { unfold report_one, replay_stub.
      repeat case_match; simplify_eq; simpl;
        rewrite ?not_elem_of_app, ?not_elem_of_cons;
        repeat split; try apply not_elem_of_nil; done. }
    destruct (report_one fuel tbl w l) as [evs [e|w']]; simpl in *; [done|].
    specialize (IH w').
    destruct (report_loop fuel tbl ls w') as [[evs' e] w'']; simpl in *.
    by rewrite not_elem_of_app. }
  specialize (Hno (sorted_lengths tbl) (MkWriter EmptyString EmptyString)).
  destruct (report_loop _ _ _ _) as [[evs e] w]. simpl in *.
  split; [done|]. split; [left|]. rewrite not_elem_of_cons. done.
Qed.


End ScanMore.

(** ** The generation loop and the result phase *)

Section RunMore.
Context {E : RulesEngine} {R : RandSource} {rt : GoRuntime}.

Abbreviation GameT := (Game Position).

Lemma gen_loop_appends fuel env k :
  forall i store (tbl : gmap Z (option GameT)),
    exists suffix,
      storage_out (gen_loop fuel env k i store tbl) = store +:+ suffix /\
      (generated_seeds (log (gen_loop fuel env k i store tbl)) = [] ->
       suffix = EmptyString).
Proof.
  induction k as [|k IH]; intros i store tbl.
  - exists EmptyString. rewrite append_nil_r. split; [|done].
    apply report_store.
  - simpl.
    destruct (generateRandomGame fuel i) as [[[g|] [err|]|]|];
      try (exists EmptyString; rewrite append_nil_r; split; done).
    unfold storeGame. destruct (getSANMoves g) as [sanMoves|];
      [|exists EmptyString; rewrite append_nil_r; split; done].
    destruct (sync_ok env i).
    + destruct (IH (i + 1) (store +:+ store_line g sanMoves)
                  (addToGamesOfLength g tbl)) as (suffix & Hs & _).
      exists (store_line g sanMoves +:+ suffix). simpl.
      rewrite Hs, append_assoc. split; done.
    + exists (store_line g sanMoves). split; done.
Qed.

(** X8. A run only appends to the storage file: what the file held
    stays at its start, whatever way the run ends, and a run that generates
    no game leaves the file as it was. *)
Theorem main_appends_to_store (noSearches : Z) (fuel : nat) (env : Env) :
  exists suffix,
    storage_out (main_with noSearches fuel env) =
      storage_in env +:+ suffix /\
    (generated_seeds (log (main_with noSearches fuel env)) = [] ->
     suffix = EmptyString).
Proof.
  unfold main_with.
  destruct (scan_loop _ _ _ _ _) as [tbl evs|start tbl evs] eqn:Hscan.
  - exists EmptyString. simpl. by rewrite append_nil_r.
  - destruct (gen_loop_appends fuel env (Z.to_nat (noSearches - start)) start
                (storage_in env) tbl) as (suffix & Hs & Hnil).
    exists suffix. unfold add_log. simpl. split; [done|].
    rewrite generated_seeds_app.
    intros [_ H]%app_eq_nil. by apply Hnil.
Qed.

Hypothesis rlaws : RuntimeLaws rt.

Lemma addToGamesOfLength_filled g (tbl : gmap Z (option GameT)) :
  keys_are_targets tbl -> filled (addToGamesOfLength g tbl).
Proof.
  intros Hk T HT. rewrite (addToGamesOfLength_lookup rlaws).
  destruct (proj2 (Hk T) HT) as [lg ->]. simpl.
  destruct lg as [old|]; simpl; [destruct (_ <? _)|]; eauto.
Qed.

Lemma scan_done_filled noSearches readErr lines :
  forall startIndex (tbl : gmap Z (option GameT)) s t evs,
    scan_loop noSearches readErr lines startIndex tbl = ScanDone s t evs ->
    keys_are_targets tbl ->
    filled tbl \/ startIndex < s ->
    filled t.
Proof.
  induction lines as [|l lines IH]; intros startIndex tbl s t evs; simpl.
  - intros [= <- <- <-] _ [?|?]; [done|lia].
  - destruct (load_line startIndex l) as [|g]; [done|].
    destruct (decide _).
    + intros [= <- <- <-] Hk _. by apply addToGamesOfLength_filled.
    + intros Hs Hk _. eapply IH; [exact Hs| |].
      * by apply (addToGamesOfLength_keys rlaws).
      * left. by apply addToGamesOfLength_filled.
Qed.

Lemma scan_fatal_no_results noSearches readErr lines :
  forall startIndex (tbl : gmap Z (option GameT)) t evs,
    scan_loop noSearches readErr lines startIndex tbl = ScanFatal t evs ->
    LogWritingResults ∉ evs.
Proof.
  induction lines as [|l lines IH]; intros startIndex tbl t evs; simpl;
    [done|].
  destruct (load_line startIndex l) as [ev|g] eqn:Hl.
  - intros [= _ <-]. unfold load_line in Hl.
    rewrite !not_elem_of_cons.
    destruct (Atoi _); [destruct (decide _)|]; simplify_eq;
      repeat split; try done; apply not_elem_of_nil.
  - destruct (decide _); [done|]. apply IH.
Qed.

Lemma gen_loop_filled fuel env k :
  forall i store (tbl : gmap Z (option GameT)),
    keys_are_targets tbl ->
    filled tbl \/ (0 < k)%nat ->
    LogWritingResults ∈ log (gen_loop fuel env k i store tbl) ->
    filled (games (gen_loop fuel env k i store tbl)).
Proof.
  induction k as [|k IH]; intros i store tbl Hk Hf.
  - intros _. destruct Hf as [Hf|?]; [|lia]. simpl. unfold report.
    by destruct (report_loop _ _ _ _) as [[evs e] w].
  - simpl.
    destruct (generateRandomGame fuel i) as [[[g|] [err|]|]|]; simpl;
      rewrite ?elem_of_cons, ?elem_of_nil; try (intros H; by intuition).
    unfold storeGame. destruct (getSANMoves g) as [sanMoves|]; simpl;
      rewrite ?elem_of_cons, ?elem_of_nil; try (intros H; by intuition).
    destruct (sync_ok env i); simpl;
      rewrite ?elem_of_cons, ?elem_of_nil; try (intros H; by intuition).
    intros [?|[?|Hin]]; try done.
    apply IH; [|left|done].
    + by apply (addToGamesOfLength_keys rlaws).
    + by apply addToGamesOfLength_filled.
Qed.

(** X13. With a positive budget, a run that reaches the result phase
    holds a game for every target length: the first record seen, stub or
    generated, is put under every key before the phase starts, so the
    result loop does not meet a [nil] entry there. *)
Theorem report_phase_has_every_game (noSearches : Z) (fuel : nat)
    (env : Env) :
  0 < noSearches ->
  LogWritingResults ∈ log (main_with noSearches fuel env) ->
  filled (games (main_with noSearches fuel env)).
Proof.
  intros Hpos. unfold main_with.
  destruct (scan_loop _ _ _ _ _) as [tbl evs|start tbl evs] eqn:Hscan.
  - simpl. intros Hin.
    by destruct (scan_fatal_no_results _ _ _ _ _ _ _ Hscan).
  - destruct (scan_done_keys rlaws _ _ _ _ _ _ _ _ Hscan
                (gamesOfLength0_keys)) as [Hk _].
    destruct (scan_done_seeds _ _ _ _ _ _ _ _ Hscan) as (_ & _ & Hnw).
    unfold add_log. simpl. rewrite elem_of_app. intros [?|Hin]; [done|].
    apply gen_loop_filled; [done| |done].
    destruct (decide (0 < start)) as [Hs|Hs].
    + left. eapply scan_done_filled; [exact Hscan|apply gamesOfLength0_keys|].
      by right.
    + right. pose proof (scan_loop_process _ _ _ _ _ _ _ _ Hscan)
        as (stubs & _ & Hstart & _). lia.
Qed.

End RunMore.

(** ** Errors of the generation and of the scanner *)

Section ErrorsMore.
Context {E : RulesEngine} {R : RandSource} {rt : GoRuntime}.

Abbreviation GameT := (Game Position).

Lemma scan_loop_exhaust noSearches readErr lines :
  forall startIndex (tbl : gmap Z (option GameT)),
    startIndex + Z.of_nat (List.length lines) < noSearches ->
    Forall (fun l => ~ corrupt_line l) lines ->
    exists tbl',
      scan_loop noSearches readErr lines startIndex tbl =
        ScanDone (startIndex + Z.of_nat (List.length lines)) tbl'
                 (if readErr then [LogReadError] else []).
Proof.
  induction lines as [|l lines IH]; intros startIndex tbl Hlt Hall; simpl.
  - eexists. f_equal. lia.
  - apply Forall_cons in Hall as [Hl Hall].
    destruct (load_line_intact startIndex l Hl) as [g ->].
    simpl in Hlt. rewrite decide_False by lia.
    destruct (IH (startIndex + 1) (addToGamesOfLength g tbl)) as [tbl' ->];
      [lia|done|].
    eexists. f_equal. lia.
Qed.

Lemma gen_loop_first fuel env k i store (tbl : gmap Z (option GameT)) :
  head (generated_seeds (log (gen_loop fuel env (S k) i store tbl))) = Some i.
Proof.
  simpl. destruct (generateRandomGame fuel i) as [[[g|] [err|]|]|]; try done.
  destruct (storeGame store tbl g) as [[store' tbl']|]; [|done].
  by destruct (sync_ok env i).
Qed.

Lemma take_fitting_short ls :
  forallb fits ls = false ->
  (List.length (take_fitting ls) < List.length ls)%nat.
Proof.
  induction ls as [|l ls IH]; simpl; [done|].
  destruct (fits l); simpl; [|lia]. intros H. specialize (IH H). lia.
Qed.

(** X15. A line too long for the scanner is not fatal: the scan ends
    before it, the error is logged, and when the lines read are intact and
    fewer than the budget the generation starts at their number, although
    the file holds more lines than that. *)
Theorem read_error_resumes_at_lines_read (noSearches : Z) (fuel : nat)
    (env : Env) :
  Scanner_err (storage_in env) = true ->
  Forall (fun l => ~ corrupt_line l) (Scanner_tokens (storage_in env)) ->
  Z.of_nat (List.length (Scanner_tokens (storage_in env))) < noSearches ->
  let r := main_with noSearches fuel env in
  LogReadError ∈ log r /\
  head (generated_seeds (log r)) =
    Some (Z.of_nat (List.length (Scanner_tokens (storage_in env)))) /\
  (List.length (Scanner_tokens (storage_in env)) <
     List.length (raw_lines (storage_in env)))%nat.
Proof.
  intros Herr Hall Hlt. cbv zeta. unfold main_with.
  destruct (scan_loop_exhaust noSearches (Scanner_err (storage_in env))
              (Scanner_tokens (storage_in env)) 0 gamesOfLength0)
    as [tbl ->]; [lia|done|].
  rewrite Herr, Z.add_0_l. unfold add_log. cbn [log].
  split; [left|]. split.
  - destruct (Z.to_nat _) as [|k] eqn:Hk; [lia|].
    change ([LogReadError] ++ ?l) with (LogReadError :: l).
    cbn [generated_seeds omap]. apply gen_loop_first.
  - unfold Scanner_tokens. rewrite length_fmap. apply take_fitting_short.
    unfold Scanner_err in Herr. by apply negb_true_iff in Herr.
Qed.

Context (elaws : EngineLaws E) (rlaws : RuntimeLaws rt).

(** X10. An error of [generateRandomGame] is fatal.  When the scan ends
    without corruption, the seeds from [startIndex] up to [i] give games
    and successful syncs, and the call for seed [i] returns an error, the
    run ends by [log.Fatal] with that error as its last log entry: no seed
    after [i] is generated, the result phase does not run, and the result
    file is not opened. *)
Theorem generation_error_ends_run (noSearches : Z) (fuel : nat) (env : Env)
    (start : Z) (tbl : gmap Z (option GameT)) (evs : list LogEvent)
    (i : Z) (ng : option GameT) (err : EngineError) :
  scan_loop noSearches (Scanner_err (storage_in env))
            (Scanner_tokens (storage_in env)) 0 gamesOfLength0 =
    ScanDone start tbl evs ->
  start <= i < noSearches ->
  (forall j, start <= j < i ->
     exists g, generateRandomGame fuel j = Some (GenReturn (Some g) None) /\
               sync_ok env j = true) ->
  generateRandomGame fuel i = Some (GenReturn ng (Some err)) ->
  let r := main_with noSearches fuel env in
  exit r = ExitFatal /\
  last (log r) = Some (LogFatalGenerate err) /\
  generated_seeds (log r) = seqZ start (i - start + 1) /\
  (LogWritingResults ∉ log r) /\
  result_out r = result_in env.
Proof.
  intros Hscan Hi Hgen Herr. cbv zeta. unfold main_with. rewrite Hscan.
  destruct (scan_done_seeds _ _ _ _ _ _ _ _ Hscan) as (Hevs & _ & Hnw).
  set (k := Z.to_nat (noSearches - start)).
  set (n := Z.to_nat (i - start)).
  destruct (gen_loop_run elaws rlaws fuel env n k start (storage_in env) tbl)
    as (evs1 & store1 & tbl1 & -> & Hs1 & _ & Hnw1); [unfold k, n; lia| |].
  { intros j Hj. apply Hgen. unfold n in *. lia. }
  replace (start + Z.of_nat n) with i by (unfold n; lia).
  destruct (k - n)%nat as [|k'] eqn:Hk; [unfold k, n in *; lia|].
  cbn [gen_loop]. rewrite Herr.
  assert (Hrun : (let stop e evs0 :=
                    MkRun e (LogGenerating i :: evs0) tbl1 store1
                          (result_in env) in
                  match ng with
                  | _ => stop ExitFatal [LogFatalGenerate err]
                  end) =
                 MkRun ExitFatal [LogGenerating i; LogFatalGenerate err]
                       tbl1 store1 (result_in env)) by done.
  destruct ng; unfold add_log; cbn [exit log result_out];
    (split; [done|]); (split; [|split; [|split; [|done]]]).
  all: try (rewrite !app_assoc;
            change [LogGenerating i; LogFatalGenerate err]
              with ([LogGenerating i] ++ [LogFatalGenerate err]);
            rewrite app_assoc; apply last_snoc).
  all: try (rewrite !generated_seeds_app, Hevs, Hs1; simpl;
            replace (i - start + 1) with (Z.of_nat n + 1) by (unfold n; lia);
            rewrite seqZ_app by lia; f_equal;
            replace (start + Z.of_nat n) with i by (unfold n; lia); done).
  all: rewrite !not_elem_of_app, !not_elem_of_cons;
       repeat split; try done; apply not_elem_of_nil.
Qed.

End ErrorsMore.

(** ** The replay of a stored game *)

Section ReplayMore.
Context {E : RulesEngine} {R : RandSource} {rt : GoRuntime}.
Context (elaws : EngineLaws E) (rlaws : RuntimeLaws rt).
Hypothesis words : SAN_words E.

Abbreviation GameT := (Game Position).

(** X14. A game generated from seed [i] and stored passes the cross check
    of the result loop.  With an engine that writes each move as one word:
    the stub that the scan loop builds from the stored line, read as line
    [i] of the file and selected for any target length [l], is played
    again from its tag, the moves of the replay are the moves of the line,
    no difference is logged, and the block written holds the seed, the
    half-move count and the moves of the game. *)
Theorem stored_game_replays_without_warning (fuel : nat) (i l : Z)
    (g : GameT) (tbl : gmap Z (option GameT)) (w : Writer) :
  0 <= i <= maxInt ->
  slice_len (Positions g) - 1 <= maxInt ->
  generateRandomGame fuel i = Some (GenReturn (Some g) None) ->
  exists sanMoves stub,
    getSANMoves g = Some sanMoves /\
    load_line i (line_text (slice_len (Positions g) - 1) sanMoves) =
      inr stub /\
    (tbl !! l = Some (Some stub) ->
     report_one fuel tbl w l =
       ([LogTarget l (Sprint_int i) (slice_len (Positions g) - 1)],
        inr (WriteString w
               (result_block (Sprint_int i) (slice_len (Positions g) - 1)
                             l sanMoves)))).
Proof.
  intros Hi Hmax Hgen.
  destruct (generated_played rlaws elaws _ _ _ _ Hgen) as (Hpl & _ & Hlen).
  destruct (played_sanMoves words g Hpl) as (sanMoves & Hsan & Hk & Htok).
  assert (Hnil : sanMoves <> []) by (intros ->; simpl in Hk; lia).
  rewrite <- Hk in Hmax.
  destruct (load_line_text i sanMoves Hnil Htok Hmax) as [_ Hload].
  cbv zeta in Hload. rewrite Hk in Hload.
  eexists sanMoves, _. split; [done|]. split; [exact Hload|].
  intros Hl. unfold report_one. rewrite Hl. unfold replay_stub.
  rewrite decide_True by done.
  assert (Htag : forall P (ps : slice P),
            tag (MkGame {[ "#" := Sprint_int i;
                           "sanMoves" := Join sanMoves " " ]} ps) "#" =
              Sprint_int i /\
            tag (MkGame {[ "#" := Sprint_int i;
                           "sanMoves" := Join sanMoves " " ]} ps) "sanMoves" =
              Join sanMoves " ").
  { intros P ps. unfold tag. simpl. split; by simplify_map_eq. }
  rewrite (proj1 (Htag _ _)), Atoi_Sprint_int, Hgen by done.
  unfold getSANMoves in *. cbn [Positions Tags] in *. rewrite Hsan.
  destruct (Htag _ (Positions g)) as [Hnum Hmoves].
  rewrite Hnum, !Hmoves, decide_False by tauto. done.
Qed.

End ReplayMore.


(** ** Further runs of [main] on the small engine *)

Lemma nim_broken_engine_laws start : EngineLaws (Nim.engine start true).
Proof.
  split; simpl.
  - intros g m. unfold Nim.legal. destruct (Nim.current g) as [|[|n]];
      rewrite ?elem_of_cons, ?elem_of_nil; intuition (subst; done).
  - eexists. split; reflexivity.
  - intros g m g' gs. unfold Nim.make. simpl. done.
Qed.


(** The scan of two intact lines. *)
Lemma scan_selects_among_stubs_witness :
  let env := MkEnv Nim.two_lines None (fun _ => true) in
  let s0 : Game Nim.position :=
    MkGame {[ "#" := "0"; "sanMoves" := "b2 a1 b2" ]}%string (make_empty 4) in
  let s1 : Game Nim.position :=
    MkGame {[ "#" := "1"; "sanMoves" := "a1 b2 a1 a1" ]}%string
           (make_empty 5) in
  let tbl := process (E := Nim.engine 5 false) (rt := Nim.runtime) [s0; s1]
                     gamesOfLength0 in
  scan_loop (E := Nim.engine 5 false) (rt := Nim.runtime) 4
            (Scanner_err (storage_in env))
            (Scanner_tokens (storage_in env)) 0 gamesOfLength0 =
    ScanDone 2 tbl [] /\
  exists stubs,
    tbl = process (E := Nim.engine 5 false) (rt := Nim.runtime) stubs
                  gamesOfLength0 /\
    2 = Z.of_nat (List.length stubs) /\
    forall (j : nat) stub, stubs !! j = Some stub ->
      exists line, Scanner_tokens (storage_in env) !! j = Some line /\
                   load_line (E := Nim.engine 5 false) (Z.of_nat j) line =
                     inr stub.
Proof.
  intros env s0 s1 tbl.
  assert (H1 : scan_loop (E := Nim.engine 5 false) (rt := Nim.runtime) 4
                 (Scanner_err (storage_in env))
                 (Scanner_tokens (storage_in env)) 0 gamesOfLength0 =
               ScanDone 2 tbl []) by (vm_compute; reflexivity).
  split; [exact H1|].
  apply (scan_selects_among_stubs (E := Nim.engine 5 false)
           (rt := Nim.runtime) 4 env 2 tbl [] H1).
Defined.

(** A run of three games on an empty store. *)
Lemma report_phase_has_every_game_witness :
  let env := MkEnv EmptyString None (fun _ => true) in
  RuntimeLaws Nim.runtime /\ 0 < 3 /\
  LogWritingResults ∈ log (Nim.run 3 env) /\
  filled (games (Nim.run 3 env)).
Proof.
  intros env.
  assert (H1 : 0 < 3) by lia.
  assert (H2 : LogWritingResults ∈ log (Nim.run 3 env)).
  { apply (list_elem_of_lookup_2 _ 6%nat). vm_compute. reflexivity. }
  split; [exact nim_runtime_laws|]. split; [exact H1|]. split; [exact H2|].
  apply (report_phase_has_every_game (E := Nim.engine 5 false)
           (R := Nim.lcg) nim_runtime_laws 3 20 env H1 H2).
Defined.

(** A line of 64 KiB after one intact line, and a budget of three. *)
Lemma read_error_resumes_at_lines_read_witness :
  let env := MkEnv long_store None (fun _ => true) in
  Scanner_err (storage_in env) = true /\
  Forall (fun l => ~ corrupt_line l) (Scanner_tokens (storage_in env)) /\
  Z.of_nat (List.length (Scanner_tokens (storage_in env))) < 3 /\
  LogReadError ∈ log (Nim.run 3 env) /\
  head (generated_seeds (log (Nim.run 3 env))) = Some 1.
Proof.
  intros env.
  assert (Htok : Scanner_tokens (storage_in env) = ["3 b2 a1 b2"%string])
    by (vm_compute; reflexivity).
  assert (H1 : Scanner_err (storage_in env) = true)
    by (vm_compute; reflexivity).
  assert (H2 : Forall (fun l => ~ corrupt_line l)
                 (Scanner_tokens (storage_in env))).
  { rewrite Htok. repeat constructor; vm_compute; intros H; by apply H. }
  assert (H3 : Z.of_nat (List.length (Scanner_tokens (storage_in env))) < 3)
    by (rewrite Htok; simpl; lia).
  split; [exact H1|]. split; [exact H2|]. split; [exact H3|].
  destruct (read_error_resumes_at_lines_read (E := Nim.engine 5 false)
              (R := Nim.lcg) (rt := Nim.runtime) 3 20 env H1 H2 H3)
    as (Hlog & Hhead & _).
  split; [exact Hlog|]. rewrite Htok in Hhead. exact Hhead.
Defined.

(** An engine that refuses every move, after a store of two lines: the
    call for seed 2 fails. *)
Lemma generation_error_ends_run_witness :
  let env := MkEnv Nim.two_lines (Some "old"%string) (fun _ => true) in
  let r := main_with (E := Nim.engine 5 true) (R := Nim.lcg)
                     (rt := Nim.runtime) 4 20 env in
  EngineLaws (Nim.engine 5 true) /\ RuntimeLaws Nim.runtime /\
  2 <= 2 < 4 /\
  generateRandomGame (E := Nim.engine 5 true) (R := Nim.lcg)
                     (rt := Nim.runtime) 20 2 =
    Some (GenReturn (E := Nim.engine 5 true) None (Some tt)) /\
  exit r = ExitFatal /\
  last (log r) = Some (LogFatalGenerate (E := Nim.engine 5 true) tt) /\
  generated_seeds (log r) = [2] /\
  (LogWritingResults ∉ log r) /\
  result_out r = Some "old"%string.
Proof.
  intros env r.
  assert (H1 : 2 <= 2 < 4) by lia.
  assert (H2 : generateRandomGame (E := Nim.engine 5 true) (R := Nim.lcg)
                 (rt := Nim.runtime) 20 2 =
               Some (GenReturn (E := Nim.engine 5 true) None (Some tt)))
    by reflexivity.
  split; [exact (nim_broken_engine_laws 5)|].
  split; [exact nim_runtime_laws|]. split; [exact H1|]. split; [exact H2|].
  pose (tbl := match scan_loop (E := Nim.engine 5 true) (rt := Nim.runtime)
                        4 (Scanner_err (storage_in env))
                        (Scanner_tokens (storage_in env)) 0 gamesOfLength0
                with
                | ScanDone _ t _ | ScanFatal t _ => t
                end).
  destruct (generation_error_ends_run (E := Nim.engine 5 true)
              (R := Nim.lcg) (nim_broken_engine_laws 5) nim_runtime_laws
              4 20 env 2 tbl [] 2 None tt)
    as (He & Hl & Hs & Hnw & Hr).
  - vm_compute. reflexivity.
  - exact H1.
  - intros j Hj. lia.
  - exact H2.
  - split; [exact He|]. split; [exact Hl|]. split; [exact Hs|].
    split; [exact Hnw|exact Hr].
Defined.

(** The game of seed 2, read back as line 2 and selected for length 10. *)
Lemma stored_game_replays_without_warning_witness :
  let w := MkWriter EmptyString EmptyString in
  EngineLaws (Nim.engine 5 false) /\ RuntimeLaws Nim.runtime /\
  SAN_words (Nim.engine 5 false) /\
  0 <= 2 <= maxInt /\
  slice_len (Positions Nim.game2) - 1 <= maxInt /\
  generateRandomGame (E := Nim.engine 5 false) (R := Nim.lcg)
                     (rt := Nim.runtime) 20 2 =
    Some (GenReturn (E := Nim.engine 5 false) (Some Nim.game2) None) /\
  exists sanMoves stub,
    getSANMoves (E := Nim.engine 5 false) Nim.game2 = Some sanMoves /\
    load_line (E := Nim.engine 5 false) 2
      (line_text (slice_len (Positions Nim.game2) - 1) sanMoves) =
      inr stub /\
    (<[10 := Some stub]> (gamesOfLength0 (E := Nim.engine 5 false)) !! 10 =
       Some (Some stub) ->
     report_one (E := Nim.engine 5 false) (R := Nim.lcg) (rt := Nim.runtime)
                20 (<[10 := Some stub]> gamesOfLength0) w 10 =
       ([LogTarget (E := Nim.engine 5 false) 10 (Sprint_int 2)
                   (slice_len (Positions Nim.game2) - 1)],
        inr (WriteString w
               (result_block (rt := Nim.runtime) (Sprint_int 2)
                             (slice_len (Positions Nim.game2) - 1)
                             10 sanMoves)))).
Proof.
  intros w.
  assert (H1 : 0 <= 2 <= maxInt) by (vm_compute; split; discriminate).
  assert (H2 : slice_len (Positions Nim.game2) - 1 <= maxInt)
    by (vm_compute; discriminate).
  assert (H3 : generateRandomGame (E := Nim.engine 5 false) (R := Nim.lcg)
                 (rt := Nim.runtime) 20 2 =
               Some (GenReturn (E := Nim.engine 5 false)
                               (Some Nim.game2) None))
    by reflexivity.
  split; [exact (nim_engine_laws 5)|]. split; [exact nim_runtime_laws|].
  split; [exact (nim_SAN_words 5)|].
  split; [exact H1|]. split; [exact H2|]. split; [exact H3|].
  destruct (stored_game_replays_without_warning (E := Nim.engine 5 false)
              (R := Nim.lcg) (nim_engine_laws 5) nim_runtime_laws
              (nim_SAN_words 5) 20 2 10 Nim.game2
              (<[10 := Some (Nim.stub 2 3)]> gamesOfLength0) w H1 H2 H3)
    as (sanMoves & stub & Hsan & Hload & _).
  exists sanMoves, stub. split; [exact Hsan|]. split; [exact Hload|].
  intros Hl.
  destruct (stored_game_replays_without_warning (E := Nim.engine 5 false)
              (R := Nim.lcg) (nim_engine_laws 5) nim_runtime_laws
              (nim_SAN_words 5) 20 2 10 Nim.game2
              (<[10 := Some stub]> gamesOfLength0) w H1 H2 H3)
    as (sanMoves' & stub' & Hsan' & Hload' & Hrep).
  assert (sanMoves' = sanMoves) as -> by congruence.
  assert (stub' = stub) as -> by congruence.
  exact (Hrep Hl).
Defined.

(** ** The whole result loop *)

Section ReportMore.
Context {E : RulesEngine} {R : RandSource} {rt : GoRuntime}.
Context (elaws : EngineLaws E) (rlaws : RuntimeLaws rt).

Abbreviation GameT := (Game Position).

Lemma addToGamesOfLength_replayable (g : GameT) tbl :
  seed_tagged g -> replayable tbl -> replayable (addToGamesOfLength g tbl).
Proof.
  intros Hg Htbl l g'. rewrite (addToGamesOfLength_lookup rlaws).
  destruct (tbl !! l) as [[old|]|] eqn:Hl; simpl; [| |done].
  - destruct (_ <? _); intros [= <-]; [done|]. by apply (Htbl l).
  - by intros [= <-].
Qed.

Lemma load_line_seed_tagged startIndex line (g : GameT) :
  0 <= startIndex <= maxInt ->
  load_line startIndex line = inr g -> seed_tagged g.
Proof.
  intros Hi. unfold load_line.
  destruct (Atoi _) as [n|]; [|done]. destruct (decide _); [|done].
  intros [= <-]. right. exists startIndex. split; [done|].
  unfold tag. simpl. by simplify_map_eq.
Qed.

Lemma scan_loop_replayable noSearches readErr lines :
  noSearches <= maxInt ->
  forall startIndex (tbl : gmap Z (option GameT)) s t evs,
    0 <= startIndex <= maxInt ->
    scan_loop noSearches readErr lines startIndex tbl = ScanDone s t evs ->
    replayable tbl -> replayable t.
Proof.
  intros Hmax.
  induction lines as [|l lines IH]; intros startIndex tbl s t evs Hi; simpl.
  - by intros [= <- <- <-].
  - destruct (load_line startIndex l) as [|g] eqn:Hl; [done|].
    apply load_line_seed_tagged in Hl; [|done].
    destruct (decide _) as [Hge|Hlt].
    + intros [= <- <- <-] Htbl. by apply addToGamesOfLength_replayable.
    + intros Hs Htbl. eapply IH; [|exact Hs|]; [lia|].
      by apply addToGamesOfLength_replayable.
Qed.

Lemma replay_stub_reports fuel l (g : GameT) :
  seed_tagged g ->
  match replay_stub fuel l g with
  | (_, inl e) => e <> ExitEnd
  | (_, inr None) => False
  | (_, inr (Some _)) => True
  end.
Proof.
  intros Hg. unfold replay_stub.
  destruct (decide _) as [H0|]; [|done].
  destruct Hg as [|(i & Hi & ->)]; [done|].
  rewrite Atoi_Sprint_int by done.
  destruct (generateRandomGame fuel i) as [[[ng|] err|]|]; done.
Qed.

Lemma report_one_complete fuel tbl w l :
  replayable tbl ->
  match report_one fuel tbl w l with
  | (_, inl e) => e <> ExitEnd
  | (evs, inr _) => reported_targets evs = [l]
  end.
Proof.
  intros Htbl. unfold report_one.
  destruct (tbl !! l) as [[g|]|] eqn:Hl; [|done..].
  pose proof (replay_stub_reports fuel l g (Htbl l g Hl)) as Hr.
  pose proof (replay_stub_targets fuel l g) as Ht.
  destruct (replay_stub fuel l g) as [evs [e|[g'|]]]; simpl in *;
    [done| |done].
  destruct (getSANMoves g'); [|done].
  rewrite !reported_targets_app, Ht. by destruct (decide _).
Qed.

Lemma report_loop_complete fuel tbl ls : forall w,
  replayable tbl ->
  (report_loop fuel tbl ls w).1.2 = ExitEnd ->
  reported_targets (report_loop fuel tbl ls w).1.1 = ls.
Proof.
  induction ls as [|l ls IH]; intros w Htbl; simpl; [done|].
  pose proof (report_one_complete fuel tbl w l Htbl) as H.
  destruct (report_one fuel tbl w l) as [evs [e|w']]; simpl in *; [done|].
  specialize (IH w' Htbl).
  destruct (report_loop fuel tbl ls w') as [[evs' e] w'']; simpl in *.
  intros He. by rewrite reported_targets_app, H, IH.
Qed.

Lemma report_complete fuel env store (tbl : gmap Z (option GameT)) :
  keys_are_targets tbl -> replayable tbl ->
  exit (report fuel env store tbl) = ExitEnd ->
  reported_targets (log (report fuel env store tbl)) = targets.
Proof.
  intros Hk Htbl. unfold report.
  pose proof (report_loop_complete fuel tbl (sorted_lengths tbl)
                (MkWriter EmptyString EmptyString) Htbl) as H.
  rewrite (sorted_lengths_ascending rlaws tbl Hk) in H |- *.
  destruct (report_loop _ _ _ _) as [[evs e] w]. simpl in *. exact H.
Qed.

Lemma gen_loop_complete fuel env k :
  forall i store (tbl : gmap Z (option GameT)),
    keys_are_targets tbl -> replayable tbl ->
    exit (gen_loop fuel env k i store tbl) = ExitEnd ->
    reported_targets (log (gen_loop fuel env k i store tbl)) = targets.
Proof.
  induction k as [|k IH]; intros i store tbl Hk Htbl.
  - by apply report_complete.
  - simpl.
    destruct (generateRandomGame fuel i) as [[[g|] [err|]|]|] eqn:Hgen;
      try done.
    destruct (generated_played rlaws elaws _ _ _ _ Hgen) as (_ & _ & Hlen).
    unfold storeGame. destruct (getSANMoves g); [|done].
    destruct (sync_ok env i); [|done].
    simpl. apply IH.
    + by apply (addToGamesOfLength_keys rlaws).
    + apply addToGamesOfLength_replayable; [|done]. left. lia.
Qed.

(** X16. A run that comes to the end of [main] has reported a game for
    each of the seven target lengths, once and in ascending order: no
    target is skipped for a tag that is not a number, since the tags of
    the stubs are written by the scan loop itself. *)
Theorem complete_run_reports_every_target (noSearches : Z) (fuel : nat)
    (env : Env) :
  noSearches <= maxInt ->
  exit (main_with noSearches fuel env) = ExitEnd ->
  reported_targets (log (main_with noSearches fuel env)) = targets.
Proof.
  intros Hmax. unfold main_with.
  destruct (scan_loop _ _ _ _ _) as [tbl evs|start tbl evs] eqn:Hscan;
    [done|].
  destruct (scan_done_keys rlaws _ _ _ _ _ _ _ _ Hscan (gamesOfLength0_keys))
    as [Hk Hevs].
  assert (Htbl : replayable tbl).
  { eapply scan_loop_replayable; [exact Hmax| |exact Hscan|].
    - unfold maxInt. lia.
    - intros l g Hl.
      destruct (decide (l ∈ targets)) as [Hin|Hnin].
      + by rewrite (gamesOfLength0_lookup l Hin) in Hl.
      + pose proof (gamesOfLength0_keys l) as [Hs _].
        exfalso. apply Hnin, Hs. eauto. }
  unfold add_log. simpl. rewrite reported_targets_app, Hevs. simpl.
  by apply gen_loop_complete.
Qed.

End ReportMore.

(** A run of three games on an empty store. *)
Lemma complete_run_reports_every_target_witness :
  let env := MkEnv EmptyString None (fun _ => true) in
  EngineLaws (Nim.engine 5 false) /\ RuntimeLaws Nim.runtime /\
  3 <= maxInt /\ exit (Nim.run 3 env) = ExitEnd /\
  reported_targets (log (Nim.run 3 env)) = targets.
Proof.
  intros env.
  assert (H1 : 3 <= maxInt) by (vm_compute; discriminate).
  assert (H2 : exit (Nim.run 3 env) = ExitEnd) by reflexivity.
  split; [exact (nim_engine_laws 5)|]. split; [exact nim_runtime_laws|].
  split; [exact H1|]. split; [exact H2|].
  apply (complete_run_reports_every_target (E := Nim.engine 5 false)
           (R := Nim.lcg) (nim_engine_laws 5) nim_runtime_laws
           3 20 env H1 H2).
Defined.

(** ** The result file and the end of a run *)

Section ResultFileMore.
Context {E : RulesEngine} {R : RandSource} {rt : GoRuntime}.

Abbreviation GameT := (Game Position).




End ResultFileMore.
